(** * LSH cache (src/lsh/cache.py): a shallow embedding and its properties

    The Python class [Cache] keeps [num_bands] bucket tables
    ([defaultdict(set)]), a dictionary of fingerprints, and calls
    [random.shuffle] on the fingerprint object every time it bands it.
    Fingerprints are mutable objects shared between the caller, the
    dictionary [self.fingerprints] and the hasher's memo table, so the
    embedding keeps them in an explicit heap and passes references. *)

From stdpp Require Import gmap strings list fin_maps sorting.
From Stdlib Require Import QArith.
Close Scope Q_scope.

(** ** Python values *)

(** A reference to a fingerprint object (a list or a 1-d numpy array). *)
Definition loc := positive.

(** The exceptions the methods of [Cache] can raise. [SystemError] stands for
    a reference with no object behind it, which Python cannot produce. *)
Inductive exn :=
  | KeyError
  | ValueError
  | IndexError
  | AssertionError
  | ZeroDivisionError
  | SystemError.

Inductive Res (A : Type) :=
  | Ok (a : A)
  | Raise (e : exn).
Arguments Ok {A} a.
Arguments Raise {A} e.

(** The hasher object ([lsh.minhash.MinHasher]) as the cache uses it: the
    number of seeds, the fingerprint of a document and the similarity
    estimate of two fingerprints (a float in the source, a rational here). *)
Record MinHasher := {
  num_seeds : nat;
  fingerprint_of : string → list Z;
  jaccard : list Z → list Z → Q;
}.

(** The interpreter state a [Cache] method runs in: the objects on the heap,
    the draws [random] will make next, the memo table of
    [hasher.fingerprint] and the fields of [self]. A bucket (a Python [set])
    is the list of its members in iteration order, without repetition. *)
Record state := State {
  heap : gmap loc (list Z);
  tape : list nat;
  lru : gmap string loc;
  bins : list (gmap Z (list Z));
  num_bands : nat;
  band_width : nat;
  fingerprints : gmap Z loc;
}.

Definition set_heap (h : gmap loc (list Z)) (s : state) : state :=
  State h (tape s) (lru s) (bins s) (num_bands s) (band_width s) (fingerprints s).
Definition set_tape (t : list nat) (s : state) : state :=
  State (heap s) t (lru s) (bins s) (num_bands s) (band_width s) (fingerprints s).
Definition set_lru (c : gmap string loc) (s : state) : state :=
  State (heap s) (tape s) c (bins s) (num_bands s) (band_width s) (fingerprints s).
Definition set_bins (b : list (gmap Z (list Z))) (s : state) : state :=
  State (heap s) (tape s) (lru s) b (num_bands s) (band_width s) (fingerprints s).
Definition set_fingerprints (f : gmap Z loc) (s : state) : state :=
  State (heap s) (tape s) (lru s) (bins s) (num_bands s) (band_width s) f.

(** ** The state and exception monad *)

Definition M (A : Type) : Type := state → Res A * state.

Definition ret {A} (a : A) : M A := λ s, (Ok a, s).
Definition raise {A} (e : exn) : M A := λ s, (Raise e, s).
Definition bind {A B} (m : M A) (k : A → M B) : M B :=
  λ s, match m s with
       | (Ok a, s') => k a s'
       | (Raise e, s') => (Raise e, s')
       end.
Definition get : M state := λ s, (Ok s, s).
Definition modify (f : state → state) : M unit := λ s, (Ok tt, f s).

Notation "x <- m ;; k" := (bind m (λ x, k))
  (at level 100, m at next level, right associativity).
Notation "m ;;; k" := (bind m (λ _, k))
  (at level 100, right associativity).

(** [for x in xs: body(x)] *)
Fixpoint for_ {A} (xs : list A) (body : A → M unit) : M unit :=
  match xs with
  | [] => ret tt
  | x :: xs' => body x ;;; for_ xs' body
  end.

(** ** random.shuffle *)

(** [x[i], x[j] = x[j], x[i]] *)
Definition swap (x : list Z) (i j : nat) : list Z :=
  match x !! i, x !! j with
  | Some xi, Some xj => <[j := xi]> (<[i := xj]> x)
  | _, _ => x
  end.

(** [random._randbelow(n)], reading the next draw of the tape. *)
Definition randbelow (n : nat) (t : list nat) : nat * list nat :=
  (hd 0 t `mod` n, tl t).

(** [for i in reversed(range(1, len(x))): j = randbelow(i + 1); swap] *)
Fixpoint shuffle_from (i : nat) (x : list Z) (t : list nat) : list Z * list nat :=
  match i with
  | 0 => (x, t)
  | S i' =>
      let '(j, t') := randbelow (S i) t in
      shuffle_from i' (swap x i j) t'
  end.

Definition shuffle (x : list Z) (t : list nat) : list Z * list nat :=
  shuffle_from (length x - 1) x t.

(** ** numpy.array_split and enumerate *)

Fixpoint chunks (sizes : list nat) (x : list Z) : list (list Z) :=
  match sizes with
  | [] => []
  | n :: sizes' => take n x :: chunks sizes' (drop n x)
  end.

(** [Neach_section, extras = divmod(Ntotal, Nsections)]; the first [extras]
    sections get one element more. *)
Definition section_sizes (total sections : nat) : list nat :=
  replicate (total `mod` sections) (total `div` sections + 1)
  ++ replicate (sections - total `mod` sections) (total `div` sections).

Definition array_split (x : list Z) (sections : nat) : Res (list (list Z)) :=
  if decide (sections = 0) then Raise ValueError
  else Ok (chunks (section_sizes (length x) sections) x).

Fixpoint enumerate_from {A} (start : nat) (xs : list A) : list (nat * A) :=
  match xs with
  | [] => []
  | x :: xs' => (start, x) :: enumerate_from (S start) xs'
  end.

Definition enumerate {A} (xs : list A) : list (nat * A) := enumerate_from 0 xs.

(** ** CPython's hash of a tuple of integers (64-bit build) *)

Module PyHash.
Local Open Scope Z_scope.

Definition modulus : Z := 2 ^ 61 - 1.
Definition wrap (z : Z) : Z := z `mod` 2 ^ 64.

(** [hash(n)] of an integer. *)
Definition hash_int (n : Z) : Z :=
  let h := Z.sgn n * (Z.abs n `mod` modulus) in
  if decide (h = -1) then -2 else h.

Definition XXPRIME_1 : Z := 11400714785074694791.
Definition XXPRIME_2 : Z := 14029467366897019727.
Definition XXPRIME_5 : Z := 2870177450012600261.
Definition XXROTATE (x : Z) : Z :=
  wrap (Z.lor (Z.shiftl x 31) (Z.shiftr x 33)).

Definition lane_step (acc : Z) (item : Z) : Z :=
  let acc := wrap (acc + wrap (hash_int item) * XXPRIME_2) in
  let acc := XXROTATE acc in
  wrap (acc * XXPRIME_1).

(** [hash(tuple(bucket))] *)
Definition hash_tuple (v : list Z) : Z :=
  let acc := fold_left lane_step v XXPRIME_5 in
  let acc := wrap (acc + Z.lxor (Z.of_nat (length v)) (Z.lxor XXPRIME_5 3527539)) in
  if decide (acc = 2 ^ 64 - 1) then 1546275796
  else if decide (acc < 2 ^ 63) then acc else acc - 2 ^ 64.
End PyHash.

(** ** The class [Cache] *)

(** [s.add(x)] and [s.remove(x)] on a bucket. A new member comes last in
    the list: CPython iterates a set in the order of its hash-table slots,
    which follows the order of insertion for members that collide (the
    integers 0 and 8 in a table of eight slots). *)
Definition set_add (x : Z) (s : list Z) : list Z :=
  if decide (x ∈ s) then s else s ++ [x].
Definition set_remove (x : Z) (s : list Z) : Res (list Z) :=
  if decide (x ∈ s) then Ok (filter (λ y, y ≠ x) s) else Raise KeyError.

(** [itertools.combinations(s, r=2)]: the pairs in the order [s] lists them. *)
Fixpoint combinations2 (s : list Z) : list (Z * Z) :=
  match s with
  | [] => []
  | x :: s' => map (pair x) s' ++ combinations2 s'
  end.

(** [a > b] on similarity estimates. *)
Definition gtb (a b : Q) : bool := negb (Qle_bool a b).

(** What a state shows of its index: the members of the bucket with key [k]
    in band [i] (an absent bucket has none), and the fingerprint stored for
    a document id. *)
Definition members (s : state) (i : nat) (k : Z) : list Z :=
  match bins s !! i with
  | Some d => default [] (d !! k)
  | None => []
  end.

Definition stored_fp (s : state) (doc_id : Z) : option (list Z) :=
  fingerprints s !! doc_id ≫= λ l, heap s !! l.

(** The bands of a fingerprint as [bins_] cuts them, before [enumerate]. *)
Definition bands_of (n : nat) (x : list Z) : list (list Z) :=
  chunks (section_sizes (length x) n) x.

(** Two states that differ in their bucket tables only, and two that show
    the same members in every bucket as well (reading a [defaultdict] may
    have created empty buckets). *)
Definition bins_only (s s' : state) : Prop :=
  heap s' = heap s ∧ tape s' = tape s ∧ lru s' = lru s ∧
  num_bands s' = num_bands s ∧ band_width s' = band_width s ∧
  fingerprints s' = fingerprints s ∧ length (bins s') = length (bins s).

Definition same_index (s s' : state) : Prop :=
  bins_only s s' ∧ ∀ i k, members s' i k = members s i k.

(** The state of a cache that [__init__] built: a table per band. *)
Definition wf (s : state) : Prop :=
  0 < num_bands s ∧ length (bins s) = num_bands s.

Section Cache.
(** Python's built-in [hash] on the tuple of a band, and [self.hasher]. *)
Variable hash : list Z → Z.
Variable hasher : MinHasher.

(** [Cache.__init__(hasher, num_bands)] in a world with the given heap,
    random draws and memo table. *)
Definition init (h : gmap loc (list Z)) (t : list nat) (c : gmap string loc)
    (nbands : nat) : Res state :=
  if decide (nbands = 0) then Raise ZeroDivisionError
  else if decide (num_seeds hasher `mod` nbands = 0)
  then Ok (State h t c (replicate nbands ∅) nbands
             (num_seeds hasher `div` nbands) ∅)
  else Raise AssertionError.

(** Reading the object behind a reference. *)
Definition deref (l : loc) : M (list Z) :=
  λ s, match heap s !! l with
       | Some x => (Ok x, s)
       | None => (Raise SystemError, s)
       end.

(** [random.shuffle(fingerprint)]: the object is permuted in place. *)
Definition random_shuffle (fingerprint : loc) : M unit :=
  x <- deref fingerprint ;;
  s <- get ;;
  let '(x', t') := shuffle x (tape s) in
  modify (λ s, set_tape t' (set_heap (<[fingerprint := x']> (heap s)) s)).

(** [bins_]: the generator shuffles, splits and enumerates before its
    first item; the bands it yields are read from the shuffled object. *)
Definition bins_ (fingerprint : loc) : M (list (nat * list Z)) :=
  random_shuffle fingerprint ;;;
  x <- deref fingerprint ;;
  s <- get ;;
  match array_split x (num_bands s) with
  | Ok bands => ret (enumerate bands)
  | Raise e => raise e
  end.

(** [self.bins[bin_i][bucket_id]]: a [defaultdict(set)] creates the empty
    bucket it is asked for. *)
Definition getitem (bin_i : nat) (bucket_id : Z) : M (list Z) :=
  λ s, match bins s !! bin_i with
       | None => (Raise IndexError, s)
       | Some d =>
           match d !! bucket_id with
           | Some b => (Ok b, s)
           | None => (Ok [], set_bins (<[bin_i := <[bucket_id := []]> d]> (bins s)) s)
           end
       end.

(** Writing back the bucket that [getitem] returned (it is mutated in
    place in the source). *)
Definition setitem (bin_i : nat) (bucket_id : Z) (b : list Z) : M unit :=
  modify (λ s, set_bins (alter (<[bucket_id := b]>) bin_i (bins s)) s).

(** [self.bins[bin_i][bucket_id].add(doc_id)] *)
Definition bucket_add (doc_id : Z) (band : nat * list Z) : M unit :=
  let '(bin_i, bucket) := band in
  let bucket_id := hash bucket in
  b <- getitem bin_i bucket_id ;;
  setitem bin_i bucket_id (set_add doc_id b).

(** [self.bins[bin_i][bucket_id].remove(doc_id)] *)
Definition bucket_remove (doc_id : Z) (band : nat * list Z) : M unit :=
  let '(bin_i, bucket) := band in
  let bucket_id := hash bucket in
  b <- getitem bin_i bucket_id ;;
  match set_remove doc_id b with
  | Ok b' => setitem bin_i bucket_id b'
  | Raise e => raise e
  end.

(** Modelled from the spec: [hasher.fingerprint(doc.encode('utf8'))] of
    the Fingerprint Provider, whose class is not in the source file. It
    memoises (the cache calls its [cache_clear]): a document seen before
    gives the object computed then, a new one a new object. *)
Definition hasher_fingerprint (doc : string) : M loc :=
  λ s, match lru s !! doc with
       | Some l => (Ok l, s)
       | None =>
           let l := fresh (dom (heap s)) in
           (Ok l, set_lru (<[doc := l]> (lru s))
                    (set_heap (<[l := fingerprint_of hasher doc]> (heap s)) s))
       end.

Definition clear : M unit :=
  modify (λ s, set_bins (replicate (num_bands s) ∅) s) ;;;
  modify (set_lru ∅).

Definition add_fingerprint (fingerprint : loc) (doc_id : Z) : M unit :=
  modify (λ s, set_fingerprints (<[doc_id := fingerprint]> (fingerprints s)) s) ;;;
  bands <- bins_ fingerprint ;;
  for_ bands (bucket_add doc_id).

Definition add_doc (doc : string) (doc_id : Z) : M unit :=
  fingerprint <- hasher_fingerprint doc ;;
  add_fingerprint fingerprint doc_id.

(** The first loop of [add_fingerprint_strict_dedup]; the result is
    [add_to_cache]. *)
Fixpoint strict_check (bands : list (nat * list Z)) : M bool :=
  match bands with
  | [] => ret true
  | (bin_i, bucket) :: bands' =>
      b <- getitem bin_i (hash bucket) ;;
      if decide (1 ≤ length b) then ret false else strict_check bands'
  end.

Definition add_fingerprint_strict_dedup (fingerprint : loc) (doc_id : Z) : M unit :=
  modify (λ s, set_fingerprints (<[doc_id := fingerprint]> (fingerprints s)) s) ;;;
  bands <- bins_ fingerprint ;;
  add_to_cache <- strict_check bands ;;
  if add_to_cache : bool then
    bands <- bins_ fingerprint ;;
    for_ bands (bucket_add doc_id)
  else ret tt.

Definition collision_threshold : nat := 4.

(** The first loop of [add_fingerprint_lenient_dedup], from the current
    value of [add_to_cache]. *)
Fixpoint lenient_check (bands : list (nat * list Z)) (add_to_cache : nat) : M nat :=
  match bands with
  | [] => ret add_to_cache
  | (bin_i, bucket) :: bands' =>
      b <- getitem bin_i (hash bucket) ;;
      if decide (1 ≤ length b) then
        let add_to_cache := add_to_cache + 1 in
        if decide (collision_threshold ≤ add_to_cache) then ret add_to_cache
        else lenient_check bands' add_to_cache
      else lenient_check bands' add_to_cache
  end.

Definition add_fingerprint_lenient_dedup (fingerprint : loc) (doc_id : Z) : M unit :=
  modify (λ s, set_fingerprints (<[doc_id := fingerprint]> (fingerprints s)) s) ;;;
  bands <- bins_ fingerprint ;;
  add_to_cache <- lenient_check bands 0 ;;
  if decide (add_to_cache < collision_threshold) then
    bands <- bins_ fingerprint ;;
    for_ bands (bucket_add doc_id)
  else ret tt.

(** [itertools.combinations(s, r=len(s))] yields the one tuple that lists
    all of [s]. *)
Fixpoint query_groups (bands : list (nat * list Z)) (candidate_duplicates : gset (list Z))
    : M (gset (list Z)) :=
  match bands with
  | [] => ret candidate_duplicates
  | (bin_i, bucket) :: bands' =>
      b <- getitem bin_i (hash bucket) ;;
      if decide (1 ≤ length b) then query_groups bands' (candidate_duplicates ∪ {[ b ]})
      else query_groups bands' candidate_duplicates
  end.

Definition add_query_fingerprint_get_duplicates (fingerprint : loc) : M (gset (list Z)) :=
  bands <- bins_ fingerprint ;;
  query_groups bands ∅.

(** [self.fingerprints[doc_id]] and the object it refers to. *)
Definition stored (doc_id : Z) : M (list Z) :=
  s <- get ;;
  match fingerprints s !! doc_id with
  | Some l => deref l
  | None => raise KeyError
  end.

Fixpoint filter_pairs (pairs : list (Z * Z)) (min_jaccard : Q) (res : gset (Z * Z))
    : M (gset (Z * Z)) :=
  match pairs with
  | [] => ret res
  | (id1, id2) :: pairs' =>
      f1 <- stored id1 ;;
      f2 <- stored id2 ;;
      if gtb (jaccard hasher f1 f2) min_jaccard
      then filter_pairs pairs' min_jaccard (res ∪ {[ (id1, id2) ]})
      else filter_pairs pairs' min_jaccard res
  end.

Definition filter_candidates (candidate_id_pairs : gset (Z * Z)) (min_jaccard : Q)
    : M (gset (Z * Z)) :=
  filter_pairs (elements candidate_id_pairs) min_jaccard ∅.

Definition remove_id (doc_id : Z) : M unit :=
  s <- get ;;
  match fingerprints s !! doc_id with
  | None => raise KeyError
  | Some fingerprint =>
      bands <- bins_ fingerprint ;;
      for_ bands (bucket_remove doc_id) ;;;
      modify (λ s, set_fingerprints (delete doc_id (fingerprints s)) s)
  end.

(** The buckets of one table with more than one member give their pairs. *)
Definition table_pairs (b : gmap Z (list Z)) : gset (Z * Z) :=
  map_fold (λ _ bucket acc,
              if decide (1 < length bucket)
              then acc ∪ list_to_set (combinations2 bucket) else acc) ∅ b.

Definition candidate_pairs_of (tables : list (gmap Z (list Z))) : gset (Z * Z) :=
  fold_left (λ acc b, acc ∪ table_pairs b) tables ∅.

Definition get_all_duplicates (min_jaccard : option Q) : M (gset (Z * Z)) :=
  s <- get ;;
  let candidate_pairs := candidate_pairs_of (bins s) in
  match min_jaccard with
  | None => ret candidate_pairs
  | Some m => filter_candidates candidate_pairs m
  end.

Fixpoint collect (bands : list (nat * list Z)) (candidates : gset Z) : M (gset Z) :=
  match bands with
  | [] => ret candidates
  | (bin_i, bucket) :: bands' =>
      b <- getitem bin_i (hash bucket) ;;
      collect bands' (candidates ∪ list_to_set b)
  end.

(** The set comprehension that closes [get_duplicates_of]. *)
Fixpoint filter_ids (xs : list Z) (fingerprint : loc) (min_jaccard : Q) (res : gset Z)
    : M (gset Z) :=
  match xs with
  | [] => ret res
  | x :: xs' =>
      f <- deref fingerprint ;;
      fx <- stored x ;;
      if gtb (jaccard hasher f fx) min_jaccard
      then filter_ids xs' fingerprint min_jaccard (res ∪ {[ x ]})
      else filter_ids xs' fingerprint min_jaccard res
  end.

(** The first statement of [get_duplicates_of]: the fingerprint of a
    known id, else of the document, else [ValueError]. *)
Definition resolve (doc : option string) (doc_id : option Z) : M loc :=
  s <- get ;;
  match doc_id ≫= (λ i, fingerprints s !! i), doc with
  | Some l, _ => ret l
  | None, Some d => hasher_fingerprint d
  | None, None => raise ValueError
  end.

Definition get_duplicates_of (doc : option string) (doc_id : option Z)
    (min_jaccard : option Q) : M (gset Z) :=
  fingerprint <- resolve doc doc_id ;;
  bands <- bins_ fingerprint ;;
  candidates <- collect bands ∅ ;;
  match min_jaccard with
  | None => ret candidates
  | Some m => filter_ids (elements candidates) fingerprint m ∅
  end.

Definition is_duplicate (doc : string) (doc_id : option Z) : M bool :=
  r <- get_duplicates_of (Some doc) doc_id None ;;
  ret (bool_decide (0 < size r)).

(** The loop of [add_query_fingerprint_get_duplicates_frequency]: every
    occupied bucket appends the list that holds its one tuple. *)
Fixpoint query_frequency (bands : list (nat * list Z))
    (candidate_duplicates : list (list (list Z))) : M (list (list (list Z))) :=
  match bands with
  | [] => ret candidate_duplicates
  | (bin_i, bucket) :: bands' =>
      b <- getitem bin_i (hash bucket) ;;
      if decide (1 ≤ length b) then query_frequency bands' (candidate_duplicates ++ [[b]])
      else query_frequency bands' candidate_duplicates
  end.

Definition add_query_fingerprint_get_duplicates_frequency (fingerprint : loc)
    : M (list (list (list Z))) :=
  bands <- bins_ fingerprint ;;
  query_frequency bands [].

(** [all(a == b for a, b in zip(finger, fingerprint))]: [zip] stops at the
    shorter of the two. *)
Definition fp_match (finger fingerprint : list Z) : bool :=
  forallb (λ p, bool_decide (p.1 = p.2)) (zip finger fingerprint).

(** The set comprehension of [remove_doc] over [self.fingerprints.items()]. *)
Fixpoint matching_ids (items : list (Z * loc)) (fingerprint : loc) (doc_ids : gset Z)
    : M (gset Z) :=
  match items with
  | [] => ret doc_ids
  | (id, l) :: items' =>
      finger <- deref l ;;
      f <- deref fingerprint ;;
      if fp_match finger f then matching_ids items' fingerprint (doc_ids ∪ {[ id ]})
      else matching_ids items' fingerprint doc_ids
  end.

Definition remove_doc (doc : string) : M unit :=
  fingerprint <- hasher_fingerprint doc ;;
  s <- get ;;
  doc_ids <- matching_ids (map_to_list (fingerprints s)) fingerprint ∅ ;;
  for_ (elements doc_ids) remove_id.

End Cache.

(** ** Notions the statements use *)

(** The band that an enumeration from [start] gives index [i]. *)
Definition band_at (start : nat) (cs : list (list Z)) (i : nat) : option (list Z) :=
  if decide (start ≤ i) then cs !! (i - start) else None.

(** Every band names one of the tables. *)
Definition in_range (s : state) (bands : list (nat * list Z)) : Prop :=
  Forall (λ band, band.1 < length (bins s)) bands.

Section Notions.
Variable hash : list Z → Z.

(** The bucket a band addresses already has a member. *)
Definition occupied (s : state) (band : nat * list Z) : Prop :=
  1 ≤ length (members s band.1 (hash band.2)).

#[global] Instance occupied_dec s band : Decision (occupied s band).
Proof. unfold occupied. apply _. Defined.

(** The bandings of two fingerprints address the same bucket in band [i]. *)
Definition agree_at (n : nat) (x1 x2 : list Z) (i : nat) : Prop :=
  ∃ b1 b2, bands_of n x1 !! i = Some b1 ∧ bands_of n x2 !! i = Some b2 ∧
           hash b1 = hash b2.

(** How many leading bands of an enumeration address a bucket that holds
    [doc_id]. *)
Fixpoint held_prefix (s : state) (doc_id : Z) (start : nat) (cs : list (list Z)) : nat :=
  match cs with
  | [] => 0
  | c :: cs' =>
      if decide (doc_id ∈ members s start (hash c))
      then S (held_prefix s doc_id (S start) cs') else 0
  end.
End Notions.

(** What every banding keeps: the store, the number of tables, and every
    object up to the order of its elements. The query operations keep the
    members of every bucket as well. *)
Definition banding_frame (s s' : state) : Prop :=
  fingerprints s' = fingerprints s ∧ num_bands s' = num_bands s ∧
  length (bins s') = length (bins s) ∧
  (∀ l x, heap s !! l = Some x → ∃ x', heap s' !! l = Some x' ∧ x' ≡ₚ x).

Definition query_frame (s s' : state) : Prop :=
  banding_frame s s' ∧ ∀ i k, members s' i k = members s i k.

(** A computation keeps a relation between the state before and after. *)
Definition keeps (R : state → state → Prop) {A} (m : M A) : Prop :=
  ∀ s, R s (m s).2.

(** No bucket lists a member twice; every reference of the store and of the
    provider's memo table has its object. *)
Definition buckets_nodup (s : state) : Prop := ∀ i k, NoDup (members s i k).

Definition store_live (s : state) : Prop :=
  ∀ doc_id l, fingerprints s !! doc_id = Some l → is_Some (heap s !! l).

Definition lru_live (s : state) : Prop :=
  ∀ doc l, lru s !! doc = Some l → is_Some (heap s !! l).

(** The cache is as [__init__] and the methods leave it. *)
Definition well_formed (s : state) : Prop :=
  wf s ∧ buckets_nodup s ∧ store_live s ∧ lru_live s.

Definition stays_well_formed (s s' : state) : Prop :=
  well_formed s → well_formed s'.

(** The buckets a banding addresses, as the set of their members. *)
Definition addressed_members (hash : list Z → Z) (s : state) (bands : list (list Z))
    (x : Z) : Prop :=
  ∃ i b, bands !! i = Some b ∧ x ∈ members s i (hash b).

(** ** A small cache to run the operations on *)

Module Demo.
(** The share of positions at which two fingerprints agree. *)
Definition agreement (a b : list Z) : Q :=
  Qmake (Z.of_nat (length (filter (λ p, p.1 = p.2) (zip a b))))
        (Pos.of_nat (length a)).

Definition hasher : MinHasher :=
  {| num_seeds := 4; fingerprint_of := λ _, [0; 0; 0; 0]%Z; jaccard := agreement |}.

(** [Cache(hasher, num_bands=2)] with the fingerprint [[1, 2, 3, 4]] at
    reference 1, for a given sequence of random draws. *)
Definition fresh_cache (draws : list nat) : state :=
  State {[ 1%positive := [1; 2; 3; 4]%Z ]} draws ∅ [∅; ∅] 2 2 ∅.

(** The state after a computation, and its outcome. *)
Definition after {A} (m : M A) (s : state) : state := (m s).2.
Definition outcome {A} (m : M A) (s : state) : Res A := (m s).1.

(** Three fingerprints for the scan: documents 0 and 8 share band 0, then
    document 0 is given a fingerprint that shares band 1 with document 8. *)
Definition scan_cache : state :=
  State {[ 1%positive := [1; 2; 9; 9]%Z; 2%positive := [1; 2; 3; 4]%Z;
           3%positive := [7; 7; 3; 4]%Z ]}
        [3; 2; 1; 3; 2; 1; 3; 2; 1] ∅ [∅; ∅] 2 2 ∅.
End Demo.

(** * Properties *)

(** ** Sanity checks of the embedding against CPython *)

Example hash_tuple_1_2 : PyHash.hash_tuple [1; 2]%Z = (-3550055125485641917)%Z.
Proof. vm_compute. reflexivity. Qed.
Example hash_tuple_1_3 : PyHash.hash_tuple [1; 3]%Z = (-1440771752368011620)%Z.
Proof. vm_compute. reflexivity. Qed.
Example hash_tuple_3_4 : PyHash.hash_tuple [3; 4]%Z = 1079245023883434373%Z.
Proof. vm_compute. reflexivity. Qed.

Example shuffle_identity :
  shuffle [1; 2; 3; 4]%Z [3; 2; 1] = ([1; 2; 3; 4]%Z, []).
Proof. reflexivity. Qed.
Example shuffle_zero : shuffle [1; 2; 3; 4]%Z [] = ([2; 3; 4; 1]%Z, []).
Proof. reflexivity. Qed.
Example array_split_10_3 :
  array_split [1; 2; 3; 4; 5; 6; 7; 8; 9; 10]%Z 3
  = Ok [[1; 2; 3; 4]; [5; 6; 7]; [8; 9; 10]]%Z.
Proof. reflexivity. Qed.

(** ** The monad *)

Lemma bind_ok {A B} (m : M A) (k : A → M B) s a s' :
  m s = (Ok a, s') → bind m k s = k a s'.
Proof. intros H. unfold bind. by rewrite H. Qed.

Lemma bind_raise {A B} (m : M A) (k : A → M B) s e s' :
  m s = (Raise e, s') → bind m k s = (Raise e, s').
Proof. intros H. unfold bind. by rewrite H. Qed.

(** A relation between the state before and after that every step of a
    computation keeps is kept by the computation. *)
Section Frame.
Variable R : state → state → Prop.
Hypothesis R_refl : ∀ s, R s s.
Hypothesis R_trans : ∀ s1 s2 s3, R s1 s2 → R s2 s3 → R s1 s3.

Lemma keeps_ret {A} (a : A) : keeps R (ret a).
Proof. intros s. apply R_refl. Qed.

Lemma keeps_raise {A} (e : exn) : keeps R (@raise A e).
Proof. intros s. apply R_refl. Qed.

Lemma keeps_get : keeps R get.
Proof. intros s. apply R_refl. Qed.

Lemma keeps_bind {A B} (m : M A) (k : A → M B) :
  keeps R m → (∀ a, keeps R (k a)) → keeps R (bind m k).
Proof.
  intros Hm Hk s. unfold bind. specialize (Hm s).
  destruct (m s) as [[a|e] s1]; simpl in *; [|done].
  eapply R_trans; [exact Hm | apply Hk].
Qed.

Lemma keeps_for {A} (xs : list A) (body : A → M unit) :
  (∀ x, keeps R (body x)) → keeps R (for_ xs body).
Proof.
  intros Hb. induction xs as [|x xs IH]; simpl.
  - apply keeps_ret.
  - apply keeps_bind; [apply Hb | intros _; apply IH].
Qed.
End Frame.

(** ** Shuffling permutes *)

Lemma swap_perm (x : list Z) i j : swap x i j ≡ₚ x.
Proof.
  unfold swap.
  destruct (x !! i) as [xi|] eqn:Hi; [|done].
  destruct (x !! j) as [xj|] eqn:Hj; [|done].
  by apply Permutation_insert_swap.
Qed.

Lemma shuffle_from_perm i (x : list Z) t : (shuffle_from i x t).1 ≡ₚ x.
Proof.
  revert x t. induction i as [|i IH]; intros x t; simpl; [done|].
  rewrite IH. apply swap_perm.
Qed.

Lemma shuffle_perm (x : list Z) t : (shuffle x t).1 ≡ₚ x.
Proof. apply shuffle_from_perm. Qed.

(** ** Banding *)

Lemma length_chunks sizes (x : list Z) : length (chunks sizes x) = length sizes.
Proof. revert x. induction sizes; intros; simpl; auto. Qed.

Lemma length_bands_of n (x : list Z) : 0 < n → length (bands_of n x) = n.
Proof.
  intros Hn. unfold bands_of, section_sizes.
  rewrite length_chunks, length_app, !length_replicate.
  pose proof (Nat.mod_upper_bound (length x) n). lia.
Qed.

Lemma enumerate_from_lookup {A} (xs : list A) start i :
  enumerate_from start xs !! i = pair (start + i) <$> xs !! i.
Proof.
  revert start i. induction xs as [|x xs IH]; intros start [|i]; simpl; auto.
  - by rewrite Nat.add_0_r.
  - rewrite IH. by rewrite Nat.add_succ_r.
Qed.

Lemma elem_of_enumerate_from {A} (xs : list A) start i b :
  (i, b) ∈ enumerate_from start xs ↔ start ≤ i ∧ xs !! (i - start) = Some b.
Proof.
  revert start. induction xs as [|x xs IH]; intros start; simpl.
  - rewrite elem_of_nil. split; [done|]. intros [_ H]. by rewrite lookup_nil in H.
  - rewrite elem_of_cons, IH. split.
    + intros [[= -> ->]|[Hle Hl]].
      * split; [lia|]. by rewrite Nat.sub_diag.
      * split; [lia|]. by replace (i - start) with (S (i - S start)) by lia.
    + intros [Hle Hl]. destruct (decide (i = start)) as [->|Hne].
      * rewrite Nat.sub_diag in Hl. simpl in Hl. left. by injection Hl as ->.
      * right. split; [lia|].
        by replace (i - start) with (S (i - S start)) in Hl by lia.
Qed.

(** ** Buckets *)

Lemma bins_only_refl s : bins_only s s.
Proof. by repeat split. Qed.

Lemma bins_only_trans s1 s2 s3 : bins_only s1 s2 → bins_only s2 s3 → bins_only s1 s3.
Proof. unfold bins_only. intros (?&?&?&?&?&?&?) (?&?&?&?&?&?&?). repeat split; congruence. Qed.

Lemma same_index_refl s : same_index s s.
Proof. split; [apply bins_only_refl | done]. Qed.

Lemma same_index_trans s1 s2 s3 : same_index s1 s2 → same_index s2 s3 → same_index s1 s3.
Proof.
  intros [H1 M1] [H2 M2]. split; [by eapply bins_only_trans|].
  intros i k. by rewrite M2, M1.
Qed.

Lemma wf_bins_only s s' : bins_only s s' → wf s → wf s'.
Proof. unfold wf, bins_only. intros (?&?&?&?&?&?&?) [? ?]. split; congruence. Qed.

Lemma members_insert s i d k b i' k' :
  bins s !! i = Some d →
  members (set_bins (<[i := <[k := b]> d]> (bins s)) s) i' k'
  = if decide (i' = i ∧ k' = k) then b else members s i' k'.
Proof.
  intros Hd. unfold members; simpl.
  assert (i < length (bins s)) by (by eapply lookup_lt_Some).
  destruct (decide (i' = i)) as [->|Hi].
  - rewrite list_lookup_insert_eq by done. rewrite Hd.
    destruct (decide (k' = k)) as [->|Hk].
    + rewrite lookup_insert_eq. by rewrite decide_True.
    + rewrite lookup_insert_ne by done. rewrite decide_False by (by intros [? ?]). done.
  - rewrite list_lookup_insert_ne by done. by rewrite decide_False by (by intros [? ?]).
Qed.

Lemma alter_bins_insert (l : list (gmap Z (list Z))) i d f :
  l !! i = Some d → alter f i l = <[i := f d]> l.
Proof.
  intros Hd. apply list_eq. intros j. destruct (decide (j = i)) as [->|Hne].
  - rewrite list_lookup_alter_eq, Hd. simpl.
    rewrite list_lookup_insert_eq; [done | by eapply lookup_lt_Some].
  - rewrite list_lookup_alter_ne, list_lookup_insert_ne by done. done.
Qed.

Section BucketLemmas.
Variable hash : list Z → Z.

(** Reading a bucket gives its members and changes none. *)
Lemma getitem_ok s i k :
  i < length (bins s) →
  ∃ s', getitem i k s = (Ok (members s i k), s') ∧ same_index s s'.
Proof.
  intros Hi. destruct (lookup_lt_is_Some_2 _ _ Hi) as [d Hd].
  unfold getitem, members. rewrite Hd.
  destruct (d !! k) as [b|] eqn:Hk; simpl.
  - eexists; split; [done | apply same_index_refl].
  - eexists; split; [done|]. split.
    + repeat split; simpl; try done. by rewrite length_insert.
    + intros i' k'. rewrite members_insert by done.
      case_decide as H; [|done]. destruct H as [-> ->].
      unfold members. by rewrite Hd, Hk.
Qed.

(** Whatever its outcome, reading a bucket keeps the index. *)
Lemma getitem_keeps i k : keeps same_index (getitem i k).
Proof.
  intros s. destruct (decide (i < length (bins s))) as [Hi|Hi].
  - destruct (getitem_ok s i k Hi) as (s' & -> & H). done.
  - unfold getitem. rewrite lookup_ge_None_2 by lia. apply same_index_refl.
Qed.

Lemma setitem_ok s i k b :
  i < length (bins s) →
  ∃ s', setitem i k b s = (Ok tt, s') ∧ bins_only s s' ∧
    ∀ i' k', members s' i' k' = if decide (i' = i ∧ k' = k) then b else members s i' k'.
Proof.
  intros Hi. destruct (lookup_lt_is_Some_2 _ _ Hi) as [d Hd].
  unfold setitem, modify. eexists; split; [done|].
  rewrite (alter_bins_insert _ _ _ _ Hd). split.
  - repeat split; simpl; try done. by rewrite length_insert.
  - intros i' k'. by rewrite members_insert.
Qed.

Lemma bucket_add_ok s doc_id i bucket :
  i < length (bins s) →
  ∃ s', bucket_add hash doc_id (i, bucket) s = (Ok tt, s') ∧ bins_only s s' ∧
    ∀ i' k', members s' i' k'
             = if decide (i' = i ∧ k' = hash bucket)
               then set_add doc_id (members s i' k') else members s i' k'.
Proof.
  intros Hi. unfold bucket_add.
  destruct (getitem_ok s i (hash bucket) Hi) as (s1 & Hg & [B1 M1]).
  rewrite (bind_ok _ _ _ _ _ Hg).
  assert (i < length (bins s1)) as Hi1 by (destruct B1 as (?&?&?&?&?&?&?); lia).
  destruct (setitem_ok s1 i (hash bucket) (set_add doc_id (members s i (hash bucket))) Hi1)
    as (s2 & Hs & B2 & M2).
  exists s2. split; [done|]. split; [by eapply bins_only_trans|].
  intros i' k'. rewrite M2. case_decide as H.
  - by destruct H as [-> ->].
  - apply M1.
Qed.

Lemma bucket_remove_ok s doc_id i bucket :
  i < length (bins s) → doc_id ∈ members s i (hash bucket) →
  ∃ s', bucket_remove hash doc_id (i, bucket) s = (Ok tt, s') ∧ bins_only s s' ∧
    ∀ i' k', members s' i' k'
             = if decide (i' = i ∧ k' = hash bucket)
               then filter (λ y, y ≠ doc_id) (members s i' k') else members s i' k'.
Proof.
  intros Hi Hin. unfold bucket_remove.
  destruct (getitem_ok s i (hash bucket) Hi) as (s1 & Hg & [B1 M1]).
  rewrite (bind_ok _ _ _ _ _ Hg).
  unfold set_remove. rewrite decide_True by done.
  assert (i < length (bins s1)) as Hi1 by (destruct B1 as (?&?&?&?&?&?&?); lia).
  destruct (setitem_ok s1 i (hash bucket)
              (filter (λ y, y ≠ doc_id) (members s i (hash bucket))) Hi1)
    as (s2 & Hs & B2 & M2).
  exists s2. split; [done|]. split; [by eapply bins_only_trans|].
  intros i' k'. rewrite M2. case_decide as H.
  - by destruct H as [-> ->].
  - apply M1.
Qed.

Lemma bucket_remove_missing s doc_id i bucket :
  i < length (bins s) → doc_id ∉ members s i (hash bucket) →
  ∃ s', bucket_remove hash doc_id (i, bucket) s = (Raise KeyError, s') ∧ same_index s s'.
Proof.
  intros Hi Hin. unfold bucket_remove.
  destruct (getitem_ok s i (hash bucket) Hi) as (s1 & Hg & HS).
  rewrite (bind_ok _ _ _ _ _ Hg).
  unfold set_remove. rewrite decide_False by done.
  exists s1. done.
Qed.
End BucketLemmas.

(** ** The loops over the bands *)

Lemma band_at_nil start i : band_at start [] i = None.
Proof. unfold band_at. by case_decide. Qed.

Lemma band_at_cons start c cs i :
  band_at start (c :: cs) i = if decide (i = start) then Some c else band_at (S start) cs i.
Proof.
  unfold band_at. destruct (decide (i = start)) as [->|Hne].
  - rewrite decide_True by lia. by rewrite Nat.sub_diag.
  - destruct (decide (start ≤ i)).
    + rewrite decide_True by lia. by replace (i - start) with (S (i - S start)) by lia.
    + by rewrite decide_False by lia.
Qed.

Lemma band_at_0 cs i : band_at 0 cs i = cs !! i.
Proof. unfold band_at. rewrite decide_True by lia. by rewrite Nat.sub_0_r. Qed.

Lemma band_at_lt start cs i : i < start → band_at start cs i = None.
Proof. intros. unfold band_at. by rewrite decide_False by lia. Qed.

Section Loops.
Variable hash : list Z → Z.

Lemma bins__ok s l x x' t' :
  heap s !! l = Some x → 0 < num_bands s → shuffle x (tape s) = (x', t') →
  bins_ l s
  = (Ok (enumerate (bands_of (num_bands s) x')),
     set_tape t' (set_heap (<[l := x']> (heap s)) s)).
Proof.
  intros Hl Hn Hsh. unfold bins_, random_shuffle, bind, deref, get, modify, array_split.
  rewrite Hl. rewrite Hsh. simpl. rewrite lookup_insert_eq.
  rewrite decide_False by (simpl; lia). done.
Qed.

Lemma for_add_ok doc_id cs : ∀ start s,
  start + length cs ≤ length (bins s) →
  ∃ s', for_ (enumerate_from start cs) (bucket_add hash doc_id) s = (Ok tt, s') ∧
    bins_only s s' ∧
    ∀ i k, members s' i k
           = match band_at start cs i with
             | Some b => if decide (k = hash b)
                         then set_add doc_id (members s i k) else members s i k
             | None => members s i k
             end.
Proof.
  induction cs as [|c cs IH]; intros start s Hlen; simpl in *.
  - exists s. split; [done|]. split; [apply bins_only_refl|].
    intros i k. by rewrite band_at_nil.
  - destruct (bucket_add_ok hash s doc_id start c) as (s1 & H1 & B1 & M1); [lia|].
    rewrite (bind_ok _ _ _ _ _ H1).
    destruct (IH (S start) s1) as (s2 & H2 & B2 & M2).
    { destruct B1 as (?&?&?&?&?&?&?). lia. }
    exists s2. split; [done|]. split; [by eapply bins_only_trans|].
    intros i k. rewrite M2, band_at_cons, !M1.
    destruct (decide (i = start)) as [->|Hne].
    + rewrite band_at_lt by lia.
      destruct (decide (k = hash c));
        [rewrite decide_True by done | rewrite decide_False by (by intros [_ ?])];
        done.
    + rewrite decide_False by (by intros [? ?]). done.
Qed.

Lemma held_prefix_ext s s' doc_id cs : ∀ start,
  (∀ i k, start ≤ i → members s' i k = members s i k) →
  held_prefix hash s' doc_id start cs = held_prefix hash s doc_id start cs.
Proof.
  induction cs as [|c cs IH]; intros start H; simpl; [done|].
  rewrite H by lia. rewrite IH; [done|]. intros. apply H. lia.
Qed.

Lemma held_prefix_le s doc_id cs : ∀ start,
  held_prefix hash s doc_id start cs ≤ length cs.
Proof.
  induction cs as [|c cs IH]; intros start; simpl; [lia|].
  case_decide; [|lia]. specialize (IH (S start)). lia.
Qed.

Lemma for_remove_run doc_id cs : ∀ start s,
  start + length cs ≤ length (bins s) →
  ∃ s', for_ (enumerate_from start cs) (bucket_remove hash doc_id) s
        = (if decide (held_prefix hash s doc_id start cs = length cs)
           then Ok tt else Raise KeyError, s') ∧
    bins_only s s' ∧
    ∀ i k, members s' i k
           = match band_at start (take (held_prefix hash s doc_id start cs) cs) i with
             | Some b => if decide (k = hash b)
                         then filter (λ y, y ≠ doc_id) (members s i k)
                         else members s i k
             | None => members s i k
             end.
Proof.
  induction cs as [|c cs IH]; intros start s Hlen; simpl in *.
  - exists s. split; [done|]. split; [apply bins_only_refl|].
    intros i k. by rewrite band_at_nil.
  - destruct (decide (doc_id ∈ members s start (hash c))) as [Hin|Hout].
    + destruct (bucket_remove_ok hash s doc_id start c) as (s1 & H1 & B1 & M1);
        [lia|done|].
      rewrite (bind_ok _ _ _ _ _ H1).
      destruct (IH (S start) s1) as (s2 & H2 & B2 & M2).
      { destruct B1 as (?&?&?&?&?&?&?). lia. }
      assert (held_prefix hash s1 doc_id (S start) cs
              = held_prefix hash s doc_id (S start) cs) as Hp.
      { apply held_prefix_ext. intros i k Hi. rewrite M1.
        by rewrite decide_False by lia. }
      rewrite Hp in H2, M2.
      exists s2. split.
      { rewrite H2. repeat case_decide; try done; lia. }
      split; [by eapply bins_only_trans|].
      intros i k. rewrite M2. simpl. rewrite band_at_cons, !M1.
      destruct (decide (i = start)) as [->|Hne].
      * rewrite band_at_lt by lia.
        destruct (decide (k = hash c));
          [rewrite decide_True by done | rewrite decide_False by (by intros [_ ?])];
          done.
      * rewrite decide_False by (by intros [? ?]). done.
    + destruct (bucket_remove_missing hash s doc_id start c) as (s1 & H1 & B1 & M1);
        [lia|done|].
      rewrite (bind_raise _ _ _ _ _ H1).
      exists s1. split; [done|]. split; [done|].
      intros i k. simpl. by rewrite band_at_nil.
Qed.

Lemma in_range_enumerate s cs start :
  start + length cs ≤ length (bins s) → in_range s (enumerate_from start cs).
Proof.
  revert start. induction cs as [|c cs IH]; intros start H; simpl in *.
  - constructor.
  - constructor; [simpl; lia|]. apply IH. lia.
Qed.

Lemma in_range_same s s' bands :
  length (bins s') = length (bins s) → in_range s bands → in_range s' bands.
Proof. intros E. unfold in_range. by rewrite E. Qed.

Lemma occupied_same s s' band :
  (∀ i k, members s' i k = members s i k) → occupied hash s' band ↔ occupied hash s band.
Proof. intros H. unfold occupied. by rewrite H. Qed.

Lemma strict_check_ok bands : ∀ s,
  in_range s bands →
  ∃ s', strict_check hash bands s
        = (Ok (bool_decide (Forall (λ band, ¬ occupied hash s band) bands)), s') ∧
    same_index s s'.
Proof.
  induction bands as [|[i b] bands IH]; intros s Hr; simpl.
  - exists s. split; [|apply same_index_refl].
    done.
  - inversion Hr as [|? ? Hi Hr']; subst; simpl in *.
    destruct (getitem_ok s i (hash b) Hi) as (s1 & H1 & S1).
    rewrite (bind_ok _ _ _ _ _ H1).
    destruct (decide (1 ≤ length (members s i (hash b)))) as [Hocc|Hfree].
    + exists s1. split; [|done]. unfold ret.
      rewrite bool_decide_eq_false_2; [done|].
      intros HF. inversion HF as [|? ? Hh]; subst. by apply Hh.
    + destruct (IH s1) as (s2 & H2 & S2).
      { eapply in_range_same; [|done]. by destruct S1 as [(?&?&?&?&?&?&?) _]. }
      exists s2. split; [|by eapply same_index_trans].
      rewrite H2. f_equal. f_equal. apply bool_decide_ext.
      rewrite Forall_cons. split.
      * intros HF. split; [done|].
        eapply Forall_impl; [exact HF|]. intros band. simpl.
        by rewrite (occupied_same s s1 band (proj2 S1)).
      * intros [_ HF]. eapply Forall_impl; [exact HF|]. intros band. simpl.
        by rewrite (occupied_same s s1 band (proj2 S1)).
Qed.

Lemma filter_occupied_same s s' (bands : list (nat * list Z)) :
  (∀ i k, members s' i k = members s i k) →
  filter (occupied hash s') bands = filter (occupied hash s) bands.
Proof.
  intros H. induction bands as [|band bands IH]; [done|].
  rewrite !filter_cons, IH.
  destruct (decide (occupied hash s' band)) as [H1|H1];
    destruct (decide (occupied hash s band)) as [H2|H2]; try done;
    rewrite (occupied_same s s' band H) in H1; done.
Qed.

Lemma lenient_check_ok bands : ∀ s a,
  in_range s bands →
  ∃ r s', lenient_check hash bands a s = (Ok r, s') ∧ same_index s s' ∧
    (a < collision_threshold →
     (r < collision_threshold
      ↔ a + length (filter (occupied hash s) bands) < collision_threshold)).
Proof.
  induction bands as [|[i b] bands IH]; intros s a Hr; simpl.
  - exists a, s. split; [done|]. split; [apply same_index_refl|].
    intros _. by rewrite Nat.add_0_r.
  - inversion Hr as [|? ? Hi Hr']; subst; simpl in *.
    destruct (getitem_ok s i (hash b) Hi) as (s1 & H1 & S1).
    rewrite (bind_ok _ _ _ _ _ H1).
    assert (in_range s1 bands) as Hr1.
    { eapply in_range_same; [|done]. by destruct S1 as [(?&?&?&?&?&?&?) _]. }
    rewrite filter_cons. unfold occupied at 1. simpl.
    destruct (decide (1 ≤ length (members s i (hash b)))) as [Hocc|Hfree].
    + destruct (decide (collision_threshold ≤ a + 1)) as [Hth|Hth].
      * exists (a + 1), s1. split; [done|]. split; [done|].
        intros _. simpl. lia.
      * destruct (IH s1 (a + 1) Hr1) as (r & s2 & H2 & S2 & Hc).
        exists r, s2. split; [done|]. split; [by eapply same_index_trans|].
        intros _. rewrite Hc by lia.
        rewrite (filter_occupied_same s s1 bands (proj2 S1)). simpl. lia.
    + destruct (IH s1 a Hr1) as (r & s2 & H2 & S2 & Hc).
      exists r, s2. split; [done|]. split; [by eapply same_index_trans|].
      intros Ha. rewrite (Hc Ha).
      by rewrite (filter_occupied_same s s1 bands (proj2 S1)).
Qed.

Lemma collect_ok bands : ∀ s candidates,
  in_range s bands →
  ∃ r s', collect hash bands candidates s = (Ok r, s') ∧ same_index s s' ∧
    ∀ x, x ∈ r ↔ x ∈ candidates ∨
                 ∃ i b, (i, b) ∈ bands ∧ x ∈ members s i (hash b).
Proof.
  induction bands as [|[i b] bands IH]; intros s C Hr; simpl.
  - exists C, s. split; [done|]. split; [apply same_index_refl|].
    intros x. split; [auto|]. intros [?|(?&?&H&_)]; [done|]. by apply elem_of_nil in H.
  - inversion Hr as [|? ? Hi Hr']; subst; simpl in *.
    destruct (getitem_ok s i (hash b) Hi) as (s1 & H1 & S1).
    rewrite (bind_ok _ _ _ _ _ H1).
    destruct (IH s1 (C ∪ list_to_set (members s i (hash b)))) as (r & s2 & H2 & S2 & Hc).
    { eapply in_range_same; [|done]. by destruct S1 as [(?&?&?&?&?&?&?) _]. }
    exists r, s2. split; [done|]. split; [by eapply same_index_trans|].
    intros x. rewrite Hc, elem_of_union, elem_of_list_to_set. split.
    + intros [[?|?]|(i' & b' & Hin & Hx)]; [by left| |].
      * right. exists i, b. split; [left|done].
      * right. exists i', b'. split; [by right|]. by rewrite <- (proj2 S1).
    + intros [?|(i' & b' & Hin & Hx)]; [by left; left|].
      apply elem_of_cons in Hin as [[= -> ->]|Hin]; [by left; right|].
      right. exists i', b'. split; [done|]. by rewrite (proj2 S1).
Qed.
End Loops.

(** ** Insertion with collision checks *)

Ltac run H := rewrite (bind_ok _ _ _ _ _ H).

Lemma lookup_bands_of n (x : list Z) i :
  0 < n → i < n → ∃ b, bands_of n x !! i = Some b.
Proof.
  intros Hn Hi. apply lookup_lt_is_Some_2. by rewrite length_bands_of.
Qed.

Lemma stored_fp_shuffled s l (x x' : list Z) t doc_id f :
  f !! doc_id = Some l →
  stored_fp (set_tape t (set_heap (<[l := x']> (heap s)) (set_fingerprints f s))) doc_id
  = Some x'.
Proof. intros H. unfold stored_fp; simpl. rewrite H. simpl. apply lookup_insert_eq. Qed.

Section Insertion.
Variable hash : list Z → Z.

(** The second pass of the three insertions: a fresh banding, and the
    document id added to the bucket of every band. *)
Lemma insert_pass_ok s l x x' t' doc_id :
  wf s → heap s !! l = Some x → shuffle x (tape s) = (x', t') →
  ∃ s', (bands <- bins_ l ;; for_ bands (bucket_add hash doc_id)) s = (Ok tt, s') ∧
    heap s' = <[l := x']> (heap s) ∧ tape s' = t' ∧
    fingerprints s' = fingerprints s ∧ num_bands s' = num_bands s ∧
    length (bins s') = length (bins s) ∧
    ∀ i k, members s' i k
           = match bands_of (num_bands s) x' !! i with
             | Some b => if decide (k = hash b)
                         then set_add doc_id (members s i k) else members s i k
             | None => members s i k
             end.
Proof.
  intros [Hn Hlen] Hl Hsh.
  run (bins__ok s l x x' t' Hl Hn Hsh).
  set (s1 := set_tape t' (set_heap (<[l:=x']> (heap s)) s)).
  destruct (for_add_ok hash doc_id (bands_of (num_bands s) x') 0 s1)
    as (s2 & H2 & (E1&E2&E3&E4&E5&E6&E7) & M2).
  { simpl. rewrite length_bands_of by done. lia. }
  exists s2. split; [done|]. repeat split; try done.
  intros i k. rewrite M2, band_at_0. done.
Qed.

Lemma add_fingerprint_ok s l x x' t' doc_id :
  wf s → heap s !! l = Some x → shuffle x (tape s) = (x', t') →
  ∃ s', add_fingerprint hash l doc_id s = (Ok tt, s') ∧
    heap s' = <[l := x']> (heap s) ∧ tape s' = t' ∧
    fingerprints s' = <[doc_id := l]> (fingerprints s) ∧
    num_bands s' = num_bands s ∧
    length (bins s') = length (bins s) ∧
    ∀ i k, members s' i k
           = match bands_of (num_bands s) x' !! i with
             | Some b => if decide (k = hash b)
                         then set_add doc_id (members s i k) else members s i k
             | None => members s i k
             end.
Proof.
  intros Hwf Hl Hsh. unfold add_fingerprint.
  set (s0 := set_fingerprints (<[doc_id := l]> (fingerprints s)) s).
  assert (modify (λ s, set_fingerprints (<[doc_id := l]> (fingerprints s)) s) s
          = (Ok tt, s0)) as H0 by done.
  run H0.
  destruct (insert_pass_ok s0 l x x' t' doc_id Hwf Hl Hsh)
    as (sC & HC & C1 & C2 & C3 & C4 & C5 & MC).
  exists sC. done.
Qed.
End Insertion.

Section Dedup.
Variable hash : list Z → Z.

(** C4. [add_fingerprint_strict_dedup] always records the fingerprint in
    the store. With [bands1] the banding its check draws and [bands2] the
    banding its insertion draws: if a bucket addressed by [bands1] already
    has a member, no bucket gains a member; if none has, the document id
    is a member of the bucket that [bands2] addresses in each of the
    [num_bands] bands, and the buckets are otherwise as before. *)
Theorem strict_dedup_stores_and_gates s l x doc_id x1 t1 x2 t2 :
  wf s → heap s !! l = Some x →
  shuffle x (tape s) = (x1, t1) → shuffle x1 t1 = (x2, t2) →
  let bands1 := enumerate (bands_of (num_bands s) x1) in
  let bands2 := bands_of (num_bands s) x2 in
  ∃ s', add_fingerprint_strict_dedup hash l doc_id s = (Ok tt, s') ∧
    fingerprints s' = <[doc_id := l]> (fingerprints s) ∧
    (∃ x', stored_fp s' doc_id = Some x' ∧ x' ≡ₚ x) ∧
    (Exists (occupied hash s) bands1 →
       ∀ i k, members s' i k = members s i k) ∧
    (Forall (λ band, ¬ occupied hash s band) bands1 →
       (∀ i, i < num_bands s →
             ∃ b, bands2 !! i = Some b ∧ doc_id ∈ members s' i (hash b)) ∧
       (∀ i k, members s' i k
               = match bands2 !! i with
                 | Some b => if decide (k = hash b)
                             then set_add doc_id (members s i k) else members s i k
                 | None => members s i k
                 end)).
Proof.
  intros Hwf Hl Hs1 Hs2 bands1 bands2. destruct Hwf as [Hn Hlen].
  unfold add_fingerprint_strict_dedup.
  set (f := <[doc_id := l]> (fingerprints s)).
  set (s0 := set_fingerprints f s).
  assert (modify (λ s, set_fingerprints (<[doc_id := l]> (fingerprints s)) s) s
          = (Ok tt, s0)) as H0 by done.
  run H0.
  run (bins__ok s0 l x x1 t1 Hl Hn Hs1).
  set (sA := set_tape t1 (set_heap (<[l:=x1]> (heap s0)) s0)).
  destruct (strict_check_ok hash (enumerate (bands_of (num_bands s0) x1)) sA)
    as (sB & HB & (EB1&EB2&EB3&EB4&EB5&EB6&EB7) & MB).
  { apply in_range_enumerate. simpl. rewrite length_bands_of by done. lia. }
  run HB. change (num_bands s0) with (num_bands s).
  assert (∀ band, occupied hash sA band ↔ occupied hash s band) as Hocc by done.
  destruct (decide (Forall (λ band, ¬ occupied hash s band) bands1)) as [Hfree|Hcol].
  - rewrite bool_decide_eq_true_2.
    2:{ eapply Forall_impl; [exact Hfree|]. intros band Hb Ho. apply Hb. by apply Hocc. }
    destruct (insert_pass_ok hash sB l x1 x2 t2 doc_id)
      as (sC & HC & C1 & C2 & C3 & C4 & C5 & MC).
    { split; [rewrite EB4; simpl; lia | rewrite EB7, EB4; simpl; lia]. }
    { rewrite EB1. simpl. apply lookup_insert_eq. }
    { by rewrite EB2. }
    exists sC. split; [done|]. split; [by rewrite C3, EB6|]. split.
    { exists x2. split.
      - unfold stored_fp. rewrite C3, EB6. simpl. unfold f.
        rewrite lookup_insert_eq. simpl. rewrite C1. apply lookup_insert_eq.
      - rewrite <- (shuffle_perm x (tape s)), Hs1. simpl.
        rewrite <- (shuffle_perm x1 t1), Hs2. done. }
    split.
    { intros Hex. exfalso. apply Exists_exists in Hex as (band & Hin & Ho).
      rewrite Forall_forall in Hfree. by eapply Hfree. }
    intros _.
    assert (∀ i k, members sC i k
                   = match bands2 !! i with
                     | Some b => if decide (k = hash b)
                                 then set_add doc_id (members s i k) else members s i k
                     | None => members s i k
                     end) as HM.
    { intros i k. rewrite MC, EB4, !MB. done. }
    split; [|exact HM].
    intros i Hi. destruct (lookup_bands_of (num_bands s) x2 i Hn Hi) as [b Hb].
    exists b. split; [done|]. rewrite HM. fold bands2 in Hb. rewrite Hb.
    rewrite decide_True by done. unfold set_add. case_decide; [done|].
    apply elem_of_app. right. by left.
  - rewrite bool_decide_eq_false_2.
    2:{ intros HF. apply Hcol. eapply Forall_impl; [exact HF|].
        intros band Hb Ho. apply Hb. by apply Hocc. }
    exists sB. split; [done|]. split; [by rewrite EB6|]. split.
    { exists x1. split.
      - unfold stored_fp. rewrite EB6, EB1. simpl. unfold f.
        rewrite lookup_insert_eq. simpl. apply lookup_insert_eq.
      - rewrite <- (shuffle_perm x (tape s)), Hs1. done. }
    split; [intros _; intros i k; by rewrite MB|].
    intros HF. done.
Qed.

(** C5. [add_fingerprint_lenient_dedup] records the fingerprint in the
    store and counts the bands of its check banding whose bucket already
    has a member, up to [collision_threshold = 4]: with fewer than 4 such
    bands the document id is added to the bucket that the insertion
    banding addresses in each of the [num_bands] bands; with 4 or more no
    bucket gains a member. *)
Theorem lenient_dedup_threshold s l x doc_id x1 t1 x2 t2 :
  wf s → heap s !! l = Some x →
  shuffle x (tape s) = (x1, t1) → shuffle x1 t1 = (x2, t2) →
  let bands1 := enumerate (bands_of (num_bands s) x1) in
  let bands2 := bands_of (num_bands s) x2 in
  let collisions := length (filter (occupied hash s) bands1) in
  collision_threshold = 4 ∧
  ∃ s', add_fingerprint_lenient_dedup hash l doc_id s = (Ok tt, s') ∧
    fingerprints s' = <[doc_id := l]> (fingerprints s) ∧
    (∃ x', stored_fp s' doc_id = Some x' ∧ x' ≡ₚ x) ∧
    (4 ≤ collisions → ∀ i k, members s' i k = members s i k) ∧
    (collisions < 4 →
       (∀ i, i < num_bands s →
             ∃ b, bands2 !! i = Some b ∧ doc_id ∈ members s' i (hash b)) ∧
       (∀ i k, members s' i k
               = match bands2 !! i with
                 | Some b => if decide (k = hash b)
                             then set_add doc_id (members s i k) else members s i k
                 | None => members s i k
                 end)).
Proof.
  intros Hwf Hl Hs1 Hs2 bands1 bands2 collisions. split; [done|].
  destruct Hwf as [Hn Hlen].
  unfold add_fingerprint_lenient_dedup.
  set (f := <[doc_id := l]> (fingerprints s)).
  set (s0 := set_fingerprints f s).
  assert (modify (λ s, set_fingerprints (<[doc_id := l]> (fingerprints s)) s) s
          = (Ok tt, s0)) as H0 by done.
  run H0.
  run (bins__ok s0 l x x1 t1 Hl Hn Hs1).
  set (sA := set_tape t1 (set_heap (<[l:=x1]> (heap s0)) s0)).
  destruct (lenient_check_ok hash (enumerate (bands_of (num_bands s0) x1)) sA 0)
    as (r & sB & HB & [(EB1&EB2&EB3&EB4&EB5&EB6&EB7) MB] & Hr).
  { apply in_range_enumerate. simpl. rewrite length_bands_of by done. lia. }
  run HB. change (num_bands s0) with (num_bands s) in *.
  assert (filter (occupied hash sA) bands1 = filter (occupied hash s) bands1) as Hocc
    by (by apply filter_occupied_same).
  fold bands1 in Hr. rewrite Hocc in Hr. fold collisions in Hr.
  specialize (Hr ltac:(unfold collision_threshold; lia)).
  unfold collision_threshold in Hr. simpl in Hr.
  destruct (decide (r < collision_threshold)) as [Hlt|Hge].
  - apply Hr in Hlt.
    destruct (insert_pass_ok hash sB l x1 x2 t2 doc_id)
      as (sC & HC & C1 & C2 & C3 & C4 & C5 & MC).
    { split; [rewrite EB4; simpl; lia | rewrite EB7, EB4; simpl; lia]. }
    { rewrite EB1. simpl. apply lookup_insert_eq. }
    { by rewrite EB2. }
    exists sC. split; [done|]. split; [by rewrite C3, EB6|]. split.
    { exists x2. split.
      - unfold stored_fp. rewrite C3, EB6. simpl. unfold f.
        rewrite lookup_insert_eq. simpl. rewrite C1. apply lookup_insert_eq.
      - rewrite <- (shuffle_perm x (tape s)), Hs1. simpl.
        rewrite <- (shuffle_perm x1 t1), Hs2. done. }
    split; [intros ?; lia|].
    intros _.
    assert (∀ i k, members sC i k
                   = match bands2 !! i with
                     | Some b => if decide (k = hash b)
                                 then set_add doc_id (members s i k) else members s i k
                     | None => members s i k
                     end) as HM.
    { intros i k. rewrite MC, EB4, !MB. done. }
    split; [|exact HM].
    intros i Hi. destruct (lookup_bands_of (num_bands s) x2 i Hn Hi) as [b Hb].
    exists b. split; [done|]. rewrite HM. fold bands2 in Hb. rewrite Hb.
    rewrite decide_True by done. unfold set_add. case_decide; [done|].
    apply elem_of_app. right. by left.
  - assert (¬ collisions < 4) as Hcol by (intros ?; apply Hge; by apply Hr).
    exists sB. split; [done|]. split; [by rewrite EB6|]. split.
    { exists x1. split.
      - unfold stored_fp. rewrite EB6, EB1. simpl. unfold f.
        rewrite lookup_insert_eq. simpl. apply lookup_insert_eq.
      - rewrite <- (shuffle_perm x (tape s)), Hs1. done. }
    split; [intros _; intros i k; by rewrite MB|].
    intros ?. lia.
Qed.
End Dedup.

(** ** Insertion, query and removal under fresh bandings *)

Lemma filter_ne_absent (l : list Z) d : d ∉ l → filter (λ y, y ≠ d) l = l.
Proof.
  intros H. induction l as [|a l IH]; [done|].
  apply not_elem_of_cons in H as [? ?].
  rewrite filter_cons, decide_True by done. f_equal. by apply IH.
Qed.

Lemma filter_ne_set_add (l : list Z) d :
  d ∉ l → filter (λ y, y ≠ d) (set_add d l) = l.
Proof.
  intros H. unfold set_add. rewrite decide_False by done.
  rewrite filter_app, filter_ne_absent by done.
  rewrite filter_cons, decide_False by (by intros ?). by rewrite filter_nil, app_nil_r.
Qed.

Lemma elem_of_set_add (l : list Z) d : d ∈ set_add d l.
Proof.
  unfold set_add. case_decide; [done|]. apply elem_of_app. right. by left.
Qed.

Lemma elem_of_set_add_iff (l : list Z) d y : y ∈ set_add d l ↔ y = d ∨ y ∈ l.
Proof.
  unfold set_add. case_decide as H.
  - split; [by right|]. by intros [->|?].
  - rewrite elem_of_app, list_elem_of_singleton. tauto.
Qed.

Lemma elem_of_filter_ne (l : list Z) d : d ∉ filter (λ y, y ≠ d) l.
Proof. rewrite list_elem_of_filter. by intros [? ?]. Qed.

Section RoundTrip.
Variable hash : list Z → Z.
Variable hasher : MinHasher.

Lemma held_prefix_full s doc_id cs : ∀ start,
  held_prefix hash s doc_id start cs = length cs
  ↔ ∀ j c, cs !! j = Some c → doc_id ∈ members s (start + j) (hash c).
Proof.
  induction cs as [|c cs IH]; intros start; simpl.
  - split; [|done]. intros _ j c' H. by rewrite lookup_nil in H.
  - destruct (decide (doc_id ∈ members s start (hash c))) as [Hin|Hout].
    + split.
      * intros [= Hp]. pose proof (proj1 (IH (S start)) Hp) as Hq.
        intros [|j] c' Hj; simplify_eq/=.
        -- by rewrite Nat.add_0_r.
        -- rewrite Nat.add_succ_r. by apply Hq.
      * intros H. f_equal. apply (IH (S start)). intros j c' Hj.
        specialize (H (S j) c' Hj). by rewrite Nat.add_succ_r in H.
    + split; [done|]. intros H. exfalso. apply Hout.
      specialize (H 0 c eq_refl). by rewrite Nat.add_0_r in H.
Qed.

(** C1, amended. After [add_fingerprint(fingerprint, doc_id)], the query
    [get_duplicates_of(doc_id=doc_id)] returns a set that contains
    [doc_id] whenever the banding of the query's shuffle addresses, in at
    least one band, the bucket that the banding of the insertion
    addressed; when [doc_id] was in no bucket before, it is returned only
    then. *)
Theorem add_then_query_finds_itself s l x doc_id doc x1 t1 x2 t2 :
  wf s → heap s !! l = Some x →
  shuffle x (tape s) = (x1, t1) → shuffle x1 t1 = (x2, t2) →
  ∃ r s',
    (add_fingerprint hash l doc_id ;;;
     get_duplicates_of hash hasher doc (Some doc_id) None) s = (Ok r, s') ∧
    ((∃ i, agree_at hash (num_bands s) x1 x2 i) → doc_id ∈ r) ∧
    ((∀ i k, doc_id ∉ members s i k) →
     doc_id ∈ r → ∃ i, agree_at hash (num_bands s) x1 x2 i).
Proof.
  intros Hwf Hl Hs1 Hs2. pose proof Hwf as [Hn Hlen].
  destruct (add_fingerprint_ok hash s l x x1 t1 doc_id Hwf Hl Hs1)
    as (sC & HC & C1 & C2 & C3 & C4 & C5 & MC).
  run HC.
  unfold get_duplicates_of.
  assert (resolve hasher doc (Some doc_id) sC = (Ok l, sC)) as HR.
  { unfold resolve, bind, get. simpl. rewrite C3. simpl.
    by rewrite lookup_insert_eq. }
  run HR.
  assert (heap sC !! l = Some x1) as Hl1 by (rewrite C1; apply lookup_insert_eq).
  assert (0 < num_bands sC) as Hn1 by (rewrite C4; done).
  rewrite <- C2 in Hs2.
  run (bins__ok sC l x1 x2 t2 Hl1 Hn1 Hs2).
  set (sD := set_tape t2 (set_heap (<[l:=x2]> (heap sC)) sC)).
  destruct (collect_ok hash (enumerate (bands_of (num_bands sC) x2)) sD ∅)
    as (r & sE & HE & SE & Hr).
  { apply in_range_enumerate. simpl. rewrite length_bands_of by done.
    rewrite C5, C4. lia. }
  run HE. exists r, sE. split; [done|].
  rewrite C4 in Hr.
  assert (∀ i b2, bands_of (num_bands s) x2 !! i = Some b2 →
                  members sD i (hash b2)
                  = match bands_of (num_bands s) x1 !! i with
                    | Some b => if decide (hash b2 = hash b)
                                then set_add doc_id (members s i (hash b2))
                                else members s i (hash b2)
                    | None => members s i (hash b2)
                    end) as HM.
  { intros i b2 _. change (members sD i (hash b2)) with (members sC i (hash b2)).
    by rewrite MC. }
  split.
  - intros (i & b1 & b2 & Hb1 & Hb2 & Heq). apply Hr. right.
    exists i, b2. split.
    + apply elem_of_enumerate_from. split; [lia|]. by rewrite Nat.sub_0_r.
    + rewrite (HM i b2 Hb2), Hb1, decide_True by done. apply elem_of_set_add.
  - intros Hfresh Hin. apply Hr in Hin as [Hin|(i & b2 & Hb & Hin)].
    { by apply not_elem_of_empty in Hin. }
    apply elem_of_enumerate_from in Hb as [_ Hb]. rewrite Nat.sub_0_r in Hb.
    rewrite (HM i b2 Hb) in Hin.
    destruct (bands_of (num_bands s) x1 !! i) as [b1|] eqn:Hb1.
    + destruct (decide (hash b2 = hash b1)) as [Heq|Hne].
      * exists i, b1, b2. done.
      * by apply Hfresh in Hin.
    + by apply Hfresh in Hin.
Qed.

(** C2, amended. From a state in which [doc_id] is absent from the store
    and from every bucket, [add_fingerprint(f, doc_id)] followed by
    [remove_id(doc_id)] succeeds when the banding of the removal's shuffle
    addresses in every band the bucket that the insertion addressed; the
    store and the members of every bucket are then as before the add.
    Otherwise [remove_id] raises [KeyError] and [doc_id] stays in the
    store. *)
Theorem add_remove_round_trip s l x doc_id x1 t1 x2 t2 :
  wf s → heap s !! l = Some x →
  fingerprints s !! doc_id = None → (∀ i k, doc_id ∉ members s i k) →
  shuffle x (tape s) = (x1, t1) → shuffle x1 t1 = (x2, t2) →
  ∃ r s',
    (add_fingerprint hash l doc_id ;;; remove_id hash doc_id) s = (r, s') ∧
    ((∀ i, i < num_bands s → agree_at hash (num_bands s) x1 x2 i) →
       r = Ok tt ∧ fingerprints s' = fingerprints s ∧
       ∀ i k, members s' i k = members s i k) ∧
    (¬ (∀ i, i < num_bands s → agree_at hash (num_bands s) x1 x2 i) →
       r = Raise KeyError ∧ fingerprints s' !! doc_id = Some l).
Proof.
  intros Hwf Hl Hnew Hfresh Hs1 Hs2. pose proof Hwf as [Hn Hlen].
  destruct (add_fingerprint_ok hash s l x x1 t1 doc_id Hwf Hl Hs1)
    as (sC & HC & C1 & C2 & C3 & C4 & C5 & MC).
  run HC.
  assert (heap sC !! l = Some x1) as Hl1 by (rewrite C1; apply lookup_insert_eq).
  assert (0 < num_bands sC) as Hn1 by (rewrite C4; done).
  rewrite <- C2 in Hs2.
  unfold remove_id. unfold bind at 1, get at 1.
  rewrite C3. simpl. rewrite lookup_insert_eq.
  run (bins__ok sC l x1 x2 t2 Hl1 Hn1 Hs2). rewrite C4.
  set (sD := set_tape t2 (set_heap (<[l:=x2]> (heap sC)) sC)).
  set (bands1 := bands_of (num_bands s) x1) in *.
  set (bands2 := bands_of (num_bands s) x2) in *.
  destruct (for_remove_run hash doc_id bands2 0 sD)
    as (sE & HE & (E1&E2&E3&E4&E5&E6&E7) & ME).
  { simpl. unfold bands2. rewrite length_bands_of by done.
    rewrite C5. lia. }
  assert (∀ i k, members sD i k
                 = match bands1 !! i with
                   | Some b => if decide (k = hash b)
                               then set_add doc_id (members s i k) else members s i k
                   | None => members s i k
                   end) as HM.
  { intros i k. change (members sD i k) with (members sC i k). by rewrite MC. }
  assert (held_prefix hash sD doc_id 0 bands2 = length bands2
          ↔ ∀ i, i < num_bands s → agree_at hash (num_bands s) x1 x2 i) as Hfull.
  { rewrite held_prefix_full. split.
    - intros H i Hi.
      destruct (lookup_bands_of (num_bands s) x1 i Hn Hi) as [b1 Hb1].
      destruct (lookup_bands_of (num_bands s) x2 i Hn Hi) as [b2 Hb2].
      exists b1, b2. split; [done|]. split; [done|].
      specialize (H i b2 Hb2). simpl in H. rewrite HM in H.
      fold bands1 in Hb1. rewrite Hb1 in H.
      destruct (decide (hash b2 = hash b1)) as [Heq|Hne]; [done|].
      by apply Hfresh in H.
    - intros H i b2 Hb2. simpl.
      assert (i < num_bands s) as Hi.
      { apply lookup_lt_Some in Hb2. unfold bands2 in Hb2.
        by rewrite length_bands_of in Hb2. }
      destruct (H i Hi) as (b1 & b2' & Hb1 & Hb2' & Heq).
      fold bands2 in Hb2'. rewrite Hb2 in Hb2'. injection Hb2' as <-.
      rewrite HM. fold bands1 in Hb1. rewrite Hb1, decide_True by done.
      apply elem_of_set_add. }
  destruct (decide (held_prefix hash sD doc_id 0 bands2 = length bands2))
    as [Hall|Hsome].
  - run HE. eexists _, _. split; [done|]. split.
    2:{ intros Hno. exfalso. apply Hno. by apply Hfull. }
    intros Hag. split; [done|]. simpl. split.
    { rewrite E6. simpl. rewrite C3. simpl.
      rewrite delete_insert_eq. by apply delete_id. }
    change (∀ i k, members sE i k = members s i k).
    intros i k. rewrite ME, Hall, firstn_all, band_at_0, !HM.
    destruct (bands2 !! i) as [b2|] eqn:Hb2.
    + assert (i < num_bands s) as Hi.
      { apply lookup_lt_Some in Hb2. unfold bands2 in Hb2.
        by rewrite length_bands_of in Hb2. }
      destruct (Hag i Hi) as (b1 & b2' & Hb1 & Hb2' & Heq).
      fold bands2 in Hb2'. rewrite Hb2 in Hb2'. injection Hb2' as <-.
      fold bands1 in Hb1. rewrite Hb1. rewrite <- Heq.
      destruct (decide (k = hash b1)); [|done].
      apply filter_ne_set_add. apply Hfresh.
    + assert (bands1 !! i = None) as ->; [|done].
      apply lookup_ge_None. apply lookup_ge_None in Hb2.
      unfold bands1, bands2 in *. rewrite length_bands_of in * by done. done.
  - rewrite (bind_raise _ _ _ _ _ HE).
    eexists _, _. split; [done|]. split.
    { intros Hag. exfalso. apply Hsome. by apply Hfull. }
    intros _. split; [done|]. rewrite E6. simpl. rewrite C3. simpl.
    apply lookup_insert_eq.
Qed.

(** C8, amended. When the banding that [remove_id(doc_id)] draws
    addresses a bucket that does not contain [doc_id], [remove_id] raises
    [KeyError] at the first such band [m]: [doc_id] has been removed from
    the buckets addressed in the bands before [m], every other bucket is
    as before, and the store still holds [doc_id]. *)
Theorem remove_id_aborts_at_missing_bucket s doc_id l x x1 t1 :
  wf s → fingerprints s !! doc_id = Some l → heap s !! l = Some x →
  shuffle x (tape s) = (x1, t1) →
  let bands := bands_of (num_bands s) x1 in
  let m := held_prefix hash s doc_id 0 bands in
  m < num_bands s →
  ∃ s', remove_id hash doc_id s = (Raise KeyError, s') ∧
    fingerprints s' = fingerprints s ∧
    ∀ i k, members s' i k
           = match bands !! i with
             | Some b => if decide (i < m ∧ k = hash b)
                         then filter (λ y, y ≠ doc_id) (members s i k)
                         else members s i k
             | None => members s i k
             end.
Proof.
  intros Hwf Hd Hl Hs1 bands m Hm. pose proof Hwf as [Hn Hlen].
  unfold remove_id. unfold bind at 1, get at 1. rewrite Hd.
  run (bins__ok s l x x1 t1 Hl Hn Hs1).
  set (sA := set_tape t1 (set_heap (<[l:=x1]> (heap s)) s)).
  destruct (for_remove_run hash doc_id bands 0 sA)
    as (sB & HB & (E1&E2&E3&E4&E5&E6&E7) & MB).
  { simpl. unfold bands. rewrite length_bands_of by done. lia. }
  assert (held_prefix hash sA doc_id 0 bands = m) as Hp
    by (by apply held_prefix_ext).
  rewrite Hp in HB, MB.
  rewrite decide_False in HB.
  2:{ unfold bands. rewrite length_bands_of by done. lia. }
  fold bands. rewrite (bind_raise _ _ _ _ _ HB).
  exists sB. split; [done|]. split; [by rewrite E6|].
  intros i k. rewrite MB, band_at_0.
  change (members sA i k) with (members s i k).
  destruct (decide (i < m)) as [Hi|Hi].
  - rewrite lookup_take_lt by done. destruct (bands !! i); [|done].
    destruct (decide (k = hash l0)).
    + by rewrite decide_True.
    + by rewrite decide_False by (by intros [? ?]).
  - rewrite lookup_take_ge by lia. destruct (bands !! i); [|done].
    by rewrite decide_False by (by intros [? ?]).
Qed.
End RoundTrip.

(** ** What bandings and queries leave in place *)

Lemma keeps_mono (R R' : state → state → Prop) {A} (m : M A) :
  (∀ s s', R s s' → R' s s') → keeps R m → keeps R' m.
Proof. intros H K s. apply H, K. Qed.

Lemma banding_frame_refl s : banding_frame s s.
Proof. repeat split; try done. intros l x H. by exists x. Qed.

Lemma banding_frame_trans s1 s2 s3 :
  banding_frame s1 s2 → banding_frame s2 s3 → banding_frame s1 s3.
Proof.
  intros (F1&N1&L1&H1) (F2&N2&L2&H2). repeat split; try congruence.
  intros l x Hx. destruct (H1 l x Hx) as (x' & Hx' & P1).
  destruct (H2 l x' Hx') as (x'' & Hx'' & P2).
  exists x''. split; [done|]. by rewrite P2.
Qed.

Lemma query_frame_refl s : query_frame s s.
Proof. split; [apply banding_frame_refl | done]. Qed.

Lemma query_frame_trans s1 s2 s3 :
  query_frame s1 s2 → query_frame s2 s3 → query_frame s1 s3.
Proof.
  intros [B1 M1] [B2 M2]. split; [by eapply banding_frame_trans|].
  intros i k. by rewrite M2, M1.
Qed.

Lemma same_index_query_frame s s' : same_index s s' → query_frame s s'.
Proof.
  intros [(E1&E2&E3&E4&E5&E6&E7) HM]. split; [|done].
  repeat split; try done. intros l x H. exists x. by rewrite E1.
Qed.

Lemma bins_only_banding_frame s s' : bins_only s s' → banding_frame s s'.
Proof.
  intros (E1&E2&E3&E4&E5&E6&E7).
  repeat split; try done. intros l x H. exists x. by rewrite E1.
Qed.

Lemma query_banding_frame s s' : query_frame s s' → banding_frame s s'.
Proof. by intros [? _]. Qed.

Section FrameLemmas.
Variable hash : list Z → Z.
Variable hasher : MinHasher.

Lemma deref_state l s : (deref l s).2 = s.
Proof. unfold deref. by destruct (heap s !! l). Qed.

Lemma deref_keeps R l : (∀ s, R s s) → keeps R (deref l).
Proof. intros HR s. rewrite deref_state. apply HR. Qed.

Lemma stored_state doc_id s : (stored doc_id s).2 = s.
Proof.
  unfold stored, bind, get. destruct (fingerprints s !! doc_id); [|done].
  apply deref_state.
Qed.

Lemma stored_keeps R doc_id : (∀ s, R s s) → keeps R (stored doc_id).
Proof. intros HR s. rewrite stored_state. apply HR. Qed.

Lemma random_shuffle_keeps l : keeps query_frame (random_shuffle l).
Proof.
  intros s. unfold random_shuffle, bind, deref, get, modify.
  destruct (heap s !! l) as [x|] eqn:Hl; [|apply query_frame_refl].
  destruct (shuffle x (tape s)) as [x' t'] eqn:Hs. simpl.
  split; [|done]. repeat split; try done. simpl.
  intros l' y Hy. destruct (decide (l' = l)) as [->|Hne].
  - exists x'. rewrite lookup_insert_eq. split; [done|].
    rewrite Hl in Hy. injection Hy as <-.
    rewrite <- (shuffle_perm x (tape s)), Hs. done.
  - exists y. by rewrite lookup_insert_ne.
Qed.

Lemma bins__keeps l : keeps query_frame (bins_ l).
Proof.
  unfold bins_. apply keeps_bind; try apply query_frame_trans.
  - apply random_shuffle_keeps.
  - intros _. apply keeps_bind; try apply query_frame_trans.
    + apply deref_keeps, query_frame_refl.
    + intros x. apply keeps_bind; try apply query_frame_trans.
      * apply keeps_get, query_frame_refl.
      * intros s. destruct (array_split x (num_bands s)).
        -- apply keeps_ret, query_frame_refl.
        -- apply keeps_raise, query_frame_refl.
Qed.

Lemma hasher_fingerprint_keeps doc : keeps query_frame (hasher_fingerprint hasher doc).
Proof.
  intros s. unfold hasher_fingerprint.
  destruct (lru s !! doc); [apply query_frame_refl|]. simpl.
  split; [|done]. repeat split; try done. simpl.
  intros l x Hl. exists x. split; [|done].
  rewrite lookup_insert_ne; [done|].
  intros <-. apply (is_fresh (dom (heap s))). apply elem_of_dom. by exists x.
Qed.

Lemma resolve_keeps doc doc_id : keeps query_frame (resolve hasher doc doc_id).
Proof.
  unfold resolve. apply keeps_bind; try apply query_frame_trans.
  - apply keeps_get, query_frame_refl.
  - intros s. destruct (doc_id ≫= _) as [l|].
    + apply keeps_ret, query_frame_refl.
    + destruct doc.
      * apply hasher_fingerprint_keeps.
      * apply keeps_raise, query_frame_refl.
Qed.

Lemma getitem_keeps_query i k : keeps query_frame (getitem i k).
Proof. eapply keeps_mono; [apply same_index_query_frame | apply getitem_keeps]. Qed.

Lemma collect_keeps bands : ∀ candidates, keeps query_frame (collect hash bands candidates).
Proof.
  induction bands as [|[i b] bands IH]; intros C; simpl.
  - apply keeps_ret, query_frame_refl.
  - apply keeps_bind; try apply query_frame_trans; [apply getitem_keeps_query|].
    intros ?. apply IH.
Qed.

Lemma query_groups_keeps bands : ∀ acc, keeps query_frame (query_groups hash bands acc).
Proof.
  induction bands as [|[i b] bands IH]; intros C; simpl.
  - apply keeps_ret, query_frame_refl.
  - apply keeps_bind; try apply query_frame_trans; [apply getitem_keeps_query|].
    intros ?. case_decide; apply IH.
Qed.

Lemma strict_check_keeps bands : keeps query_frame (strict_check hash bands).
Proof.
  induction bands as [|[i b] bands IH]; simpl.
  - apply keeps_ret, query_frame_refl.
  - apply keeps_bind; try apply query_frame_trans; [apply getitem_keeps_query|].
    intros ?. case_decide; [apply keeps_ret, query_frame_refl | apply IH].
Qed.

Lemma lenient_check_keeps bands : ∀ a, keeps query_frame (lenient_check hash bands a).
Proof.
  induction bands as [|[i b] bands IH]; intros a; simpl.
  - apply keeps_ret, query_frame_refl.
  - apply keeps_bind; try apply query_frame_trans; [apply getitem_keeps_query|].
    intros ?. repeat case_decide; try apply IH. apply keeps_ret, query_frame_refl.
Qed.

Lemma filter_ids_keeps R xs l m : ∀ res,
  (∀ s, R s s) → keeps R (filter_ids hasher xs l m res).
Proof.
  intros res HR. revert res.
  induction xs as [|x xs IH]; intros res s; simpl.
  - apply HR.
  - unfold bind. pose proof (deref_state l s) as Hd.
    destruct (deref l s) as [[f|e] s1]; simpl in Hd; subst s1; [|apply HR].
    pose proof (stored_state x s) as Hst.
    destruct (stored x s) as [[fx|e] s1]; simpl in Hst; subst s1; [|apply HR].
    destruct (gtb _ _); apply IH.
Qed.

Lemma filter_pairs_state pairs m : ∀ res s, (filter_pairs hasher pairs m res s).2 = s.
Proof.
  induction pairs as [|[id1 id2] pairs IH]; intros res s; simpl; [done|].
  unfold bind. pose proof (stored_state id1 s) as H1.
  destruct (stored id1 s) as [[f1|e] s1]; simpl in H1; subst s1; [|done].
  pose proof (stored_state id2 s) as H2.
  destruct (stored id2 s) as [[f2|e] s1]; simpl in H2; subst s1; [|done].
  destruct (gtb _ _); apply IH.
Qed.

Lemma get_all_duplicates_state m s : (get_all_duplicates hasher m s).2 = s.
Proof.
  unfold get_all_duplicates, bind, get. destruct m; [|done].
  apply filter_pairs_state.
Qed.

Lemma get_duplicates_of_keeps doc doc_id m :
  keeps query_frame (get_duplicates_of hash hasher doc doc_id m).
Proof.
  unfold get_duplicates_of.
  apply keeps_bind; try apply query_frame_trans; [apply resolve_keeps|].
  intros l. apply keeps_bind; try apply query_frame_trans; [apply bins__keeps|].
  intros bands. apply keeps_bind; try apply query_frame_trans; [apply collect_keeps|].
  intros C. destruct m.
  - apply filter_ids_keeps, query_frame_refl.
  - apply keeps_ret, query_frame_refl.
Qed.

Lemma is_duplicate_keeps doc doc_id :
  keeps query_frame (is_duplicate hash hasher doc doc_id).
Proof.
  unfold is_duplicate.
  apply keeps_bind; try apply query_frame_trans; [apply get_duplicates_of_keeps|].
  intros r. apply keeps_ret, query_frame_refl.
Qed.

Lemma stored_fp_frame s s' doc_id x :
  banding_frame s s' → stored_fp s doc_id = Some x →
  ∃ x', stored_fp s' doc_id = Some x' ∧ x' ≡ₚ x.
Proof.
  intros (F&_&_&H). unfold stored_fp. rewrite F.
  destruct (fingerprints s !! doc_id) as [l|]; [|done]. simpl. apply H.
Qed.

(** C10, amended. [get_all_duplicates] leaves the state as it is.
    [get_duplicates_of] and [is_duplicate] keep the store's ids and
    references, the number of bucket tables and the members of every
    bucket, and every stored fingerprint keeps its elements but not their
    order; their reads of the [defaultdict] tables may add empty buckets. *)
Theorem queries_keep_the_index s :
  (∀ m, (get_all_duplicates hasher m s).2 = s) ∧
  (∀ doc doc_id m,
     let s' := (get_duplicates_of hash hasher doc doc_id m s).2 in
     query_frame s s' ∧
     ∀ d x, stored_fp s d = Some x → ∃ x', stored_fp s' d = Some x' ∧ x' ≡ₚ x) ∧
  (∀ doc doc_id,
     let s' := (is_duplicate hash hasher doc doc_id s).2 in
     query_frame s s' ∧
     ∀ d x, stored_fp s d = Some x → ∃ x', stored_fp s' d = Some x' ∧ x' ≡ₚ x).
Proof.
  split; [intros m; apply get_all_duplicates_state|]. split.
  - intros doc doc_id m s'.
    pose proof (get_duplicates_of_keeps doc doc_id m s) as H. split; [done|].
    intros d x. apply stored_fp_frame. apply H.
  - intros doc doc_id s'.
    pose proof (is_duplicate_keeps doc doc_id s) as H. split; [done|].
    intros d x. apply stored_fp_frame. apply H.
Qed.
End FrameLemmas.

(** ** The fingerprint object under insertion and query *)

Section InPlace.
Variable hash : list Z → Z.
Variable hasher : MinHasher.

Lemma setitem_keeps i k b : keeps banding_frame (setitem i k b).
Proof.
  intros s. unfold setitem, modify. simpl.
  repeat split; simpl; try done.
  - by rewrite length_alter.
  - intros l x H. by exists x.
Qed.

Lemma bucket_add_keeps doc_id band : keeps banding_frame (bucket_add hash doc_id band).
Proof.
  destruct band as [i b]. unfold bucket_add.
  apply keeps_bind; try apply banding_frame_trans.
  - eapply keeps_mono; [apply query_banding_frame | apply getitem_keeps_query].
  - intros ?. apply setitem_keeps.
Qed.

Lemma insert_pass_keeps l doc_id :
  keeps banding_frame (bands <- bins_ l ;; for_ bands (bucket_add hash doc_id)).
Proof.
  apply keeps_bind; try apply banding_frame_trans.
  - eapply keeps_mono; [apply query_banding_frame | apply bins__keeps].
  - intros bands. apply keeps_for; try apply banding_frame_trans.
    + apply banding_frame_refl.
    + apply bucket_add_keeps.
Qed.

Lemma add_fingerprint_frame l doc_id s :
  banding_frame (set_fingerprints (<[doc_id := l]> (fingerprints s)) s)
                (add_fingerprint hash l doc_id s).2.
Proof. apply (insert_pass_keeps l doc_id). Qed.

Lemma strict_dedup_frame l doc_id s :
  banding_frame (set_fingerprints (<[doc_id := l]> (fingerprints s)) s)
                (add_fingerprint_strict_dedup hash l doc_id s).2.
Proof.
  set (s0 := set_fingerprints _ s).
  change ((add_fingerprint_strict_dedup hash l doc_id s).2)
    with ((bands <- bins_ l ;;
           add_to_cache <- strict_check hash bands ;;
           if add_to_cache : bool then
             bands <- bins_ l ;; for_ bands (bucket_add hash doc_id)
           else ret tt) s0).2.
  apply keeps_bind; try apply banding_frame_trans.
  - eapply keeps_mono; [apply query_banding_frame | apply bins__keeps].
  - intros bands. apply keeps_bind; try apply banding_frame_trans.
    + eapply keeps_mono; [apply query_banding_frame | apply strict_check_keeps].
    + intros [|]; [apply insert_pass_keeps | apply keeps_ret, banding_frame_refl].
Qed.

Lemma lenient_dedup_frame l doc_id s :
  banding_frame (set_fingerprints (<[doc_id := l]> (fingerprints s)) s)
                (add_fingerprint_lenient_dedup hash l doc_id s).2.
Proof.
  set (s0 := set_fingerprints _ s).
  change ((add_fingerprint_lenient_dedup hash l doc_id s).2)
    with ((bands <- bins_ l ;;
           add_to_cache <- lenient_check hash bands 0 ;;
           if decide (add_to_cache < collision_threshold) then
             bands <- bins_ l ;; for_ bands (bucket_add hash doc_id)
           else ret tt) s0).2.
  apply keeps_bind; try apply banding_frame_trans.
  - eapply keeps_mono; [apply query_banding_frame | apply bins__keeps].
  - intros bands. apply keeps_bind; try apply banding_frame_trans.
    + eapply keeps_mono; [apply query_banding_frame | apply lenient_check_keeps].
    + intros a. case_decide; [apply insert_pass_keeps | apply keeps_ret, banding_frame_refl].
Qed.

Lemma add_query_keeps l :
  keeps query_frame (add_query_fingerprint_get_duplicates hash l).
Proof.
  unfold add_query_fingerprint_get_duplicates.
  apply keeps_bind; try apply query_frame_trans; [apply bins__keeps|].
  intros bands. apply query_groups_keeps.
Qed.

Lemma recorded_after s s' l doc_id x :
  heap s !! l = Some x →
  banding_frame (set_fingerprints (<[doc_id := l]> (fingerprints s)) s) s' →
  fingerprints s' !! doc_id = Some l ∧
  ∃ x', heap s' !! l = Some x' ∧ stored_fp s' doc_id = Some x' ∧ x' ≡ₚ x.
Proof.
  intros Hl (F & _ & _ & H). simpl in F.
  assert (fingerprints s' !! doc_id = Some l) as Hf
    by (rewrite F; apply lookup_insert_eq).
  split; [done|].
  destruct (H l x Hl) as (x' & Hx' & P). exists x'. split; [done|].
  split; [|done]. unfold stored_fp. rewrite Hf. done.
Qed.

(** C3, amended. The index bands the fingerprint object it is given, not
    a copy: each insertion leaves in the caller's object a permutation of
    the elements passed in (for [add_fingerprint] the order drawn by
    [random.shuffle]) and records in the store a reference to that same
    object, so the stored fingerprint equals the caller's object after the
    call; the two queries permute the object they band in the same way. *)
Theorem fingerprint_is_banded_in_place s l x doc_id :
  heap s !! l = Some x →
  let kept s' :=
    fingerprints s' !! doc_id = Some l ∧
    ∃ x', heap s' !! l = Some x' ∧ stored_fp s' doc_id = Some x' ∧ x' ≡ₚ x in
  kept (add_fingerprint hash l doc_id s).2 ∧
  kept (add_fingerprint_strict_dedup hash l doc_id s).2 ∧
  kept (add_fingerprint_lenient_dedup hash l doc_id s).2 ∧
  (∃ x', heap (add_query_fingerprint_get_duplicates hash l s).2 !! l = Some x' ∧
         x' ≡ₚ x) ∧
  (fingerprints s !! doc_id = Some l →
   ∀ doc m, ∃ x',
     stored_fp (get_duplicates_of hash hasher doc (Some doc_id) m s).2 doc_id = Some x' ∧
     x' ≡ₚ x) ∧
  (wf s → heap (add_fingerprint hash l doc_id s).2 !! l = Some (shuffle x (tape s)).1).
Proof.
  intros Hl kept. repeat split.
  - eapply recorded_after; [done | apply add_fingerprint_frame].
  - eapply recorded_after; [done | apply add_fingerprint_frame].
  - eapply recorded_after; [done | apply strict_dedup_frame].
  - eapply recorded_after; [done | apply strict_dedup_frame].
  - eapply recorded_after; [done | apply lenient_dedup_frame].
  - eapply recorded_after; [done | apply lenient_dedup_frame].
  - destruct (add_query_keeps l s) as [(_&_&_&H) _]. by apply H.
  - intros Hd doc m.
    apply (stored_fp_frame s).
    + apply query_banding_frame, get_duplicates_of_keeps.
    + unfold stored_fp. by rewrite Hd.
  - intros Hwf. destruct (shuffle x (tape s)) as [x1 t1] eqn:Hs.
    destruct (add_fingerprint_ok hash s l x x1 t1 doc_id Hwf Hl Hs)
      as (s' & -> & Hh & _). simpl. rewrite Hh. apply lookup_insert_eq.
Qed.
End InPlace.

(** ** Similarity filtering *)

Lemma gtb_lt (a b : Q) : gtb a b = true ↔ (b < a)%Q.
Proof.
  unfold gtb. rewrite negb_true_iff. split.
  - intros H. apply Qnot_le_lt. intros Hle. apply Qle_bool_iff in Hle. congruence.
  - intros H. destruct (Qle_bool a b) eqn:E; [|done].
    apply Qle_bool_iff in E. by apply Qlt_not_le in H.
Qed.

Lemma not_lt_of_eq (a m : Q) : (a == m)%Q → ¬ (m < a)%Q.
Proof. intros E H. apply Qlt_not_eq in H. apply H. by symmetry. Qed.

Section Filtering.
Variable hash : list Z → Z.
Variable hasher : MinHasher.

Lemma stored_ok s doc_id f :
  stored_fp s doc_id = Some f → stored doc_id s = (Ok f, s).
Proof.
  unfold stored_fp, stored, bind, get, deref.
  destruct (fingerprints s !! doc_id) as [l|]; simpl; [|done]. by intros ->.
Qed.

Lemma filter_pairs_ok s m pairs : ∀ res,
  (∀ a b, (a, b) ∈ pairs → is_Some (stored_fp s a) ∧ is_Some (stored_fp s b)) →
  ∃ R, filter_pairs hasher pairs m res s = (Ok R, s) ∧
    ∀ a b, (a, b) ∈ R ↔
           (a, b) ∈ res ∨
           ((a, b) ∈ pairs ∧
            ∃ fa fb, stored_fp s a = Some fa ∧ stored_fp s b = Some fb ∧
                     (m < jaccard hasher fa fb)%Q).
Proof.
  induction pairs as [|[id1 id2] pairs IH]; intros res Hst; simpl.
  - exists res. split; [done|]. intros a b. split; [auto|].
    intros [?|[H _]]; [done|]. by apply elem_of_nil in H.
  - destruct (Hst id1 id2) as [[f1 H1] [f2 H2]]; [left|].
    run (stored_ok s id1 f1 H1). run (stored_ok s id2 f2 H2).
    assert (∀ a b, (a, b) ∈ pairs →
                   is_Some (stored_fp s a) ∧ is_Some (stored_fp s b)) as Hst'
      by (intros a b ?; apply Hst; by right).
    destruct (gtb (jaccard hasher f1 f2) m) eqn:Hg.
    + destruct (IH (res ∪ {[(id1, id2)]}) Hst') as (R & HR & Hiff).
      exists R. split; [done|]. intros a b. rewrite Hiff, elem_of_union,
        elem_of_singleton, elem_of_cons. apply gtb_lt in Hg. split.
      * intros [[?|Heq]|[? ?]]; [by left| |by right; split; [right|]].
        injection Heq as -> ->. right. split; [by left|]. by exists f1, f2.
      * intros [?|[[Heq|?] ?]]; [by left; left| |by right].
        injection Heq as -> ->. by left; right.
    + destruct (IH res Hst') as (R & HR & Hiff).
      exists R. split; [done|]. intros a b. rewrite Hiff, elem_of_cons. split.
      * intros [?|[? ?]]; [by left|]. right. split; [by right|done].
      * intros [?|[[Heq|?] Hj]]; [by left| |by right].
        injection Heq as -> ->.
        exfalso. destruct Hj as (fa & fb & Ha & Hb & Hlt).
        rewrite H1 in Ha. rewrite H2 in Hb. simplify_eq.
        apply gtb_lt in Hlt. congruence.
Qed.

Lemma filter_ids_ok s m l f xs : ∀ res,
  heap s !! l = Some f →
  (∀ x, x ∈ xs → is_Some (stored_fp s x)) →
  ∃ R, filter_ids hasher xs l m res s = (Ok R, s) ∧
    ∀ x, x ∈ R ↔
         x ∈ res ∨
         (x ∈ xs ∧ ∃ fx, stored_fp s x = Some fx ∧ (m < jaccard hasher f fx)%Q).
Proof.
  induction xs as [|y xs IH]; intros res Hl Hst; simpl.
  - exists res. split; [done|]. intros x. split; [auto|].
    intros [?|[H _]]; [done|]. by apply elem_of_nil in H.
  - destruct (Hst y) as [fy Hy]; [left|].
    assert (deref l s = (Ok f, s)) as Hd by (unfold deref; by rewrite Hl).
    run Hd. run (stored_ok s y fy Hy).
    assert (∀ x, x ∈ xs → is_Some (stored_fp s x)) as Hst'
      by (intros x ?; apply Hst; by right).
    destruct (gtb (jaccard hasher f fy) m) eqn:Hg.
    + destruct (IH (res ∪ {[y]}) Hl Hst') as (R & HR & Hiff).
      exists R. split; [done|]. intros x. rewrite Hiff, elem_of_union,
        elem_of_singleton, elem_of_cons. apply gtb_lt in Hg. split.
      * intros [[?| ->]|[? ?]]; [by left| |by right; split; [right|]].
        right. split; [by left|]. by exists fy.
      * intros [?|[[ -> |?] ?]]; [by left; left|by left; right|by right].
    + destruct (IH res Hl Hst') as (R & HR & Hiff).
      exists R. split; [done|]. intros x. rewrite Hiff, elem_of_cons. split.
      * intros [?|[? ?]]; [by left|]. right. split; [by right|done].
      * intros [?|[[ -> |?] Hj]]; [by left| |by right].
        exfalso. destruct Hj as (fx & Hx & Hlt).
        rewrite Hy in Hx. simplify_eq.
        apply gtb_lt in Hlt. congruence.
Qed.

(** C7. Filtering keeps exactly the candidates whose similarity estimate
    is strictly greater than [min_jaccard]. [filter_candidates] returns
    the pairs whose two stored fingerprints score above the threshold;
    [get_duplicates_of] with a threshold returns the ids, among those it
    returns without one, whose stored fingerprint scores above the
    threshold against the query fingerprint (both as they stand after the
    banding). A score equal to the threshold is dropped. *)
Theorem similarity_filter_is_strict :
  (∀ s pairs m,
     (∀ a b, (a, b) ∈ pairs → is_Some (stored_fp s a) ∧ is_Some (stored_fp s b)) →
     ∃ R, filter_candidates hasher pairs m s = (Ok R, s) ∧
       (∀ a b, (a, b) ∈ R ↔
               (a, b) ∈ pairs ∧
               ∃ fa fb, stored_fp s a = Some fa ∧ stored_fp s b = Some fb ∧
                        (m < jaccard hasher fa fb)%Q) ∧
       (∀ a b fa fb, stored_fp s a = Some fa → stored_fp s b = Some fb →
                     (jaccard hasher fa fb == m)%Q → (a, b) ∉ R)) ∧
  (∀ s doc doc_id m l s1 C s' f,
     resolve hasher doc doc_id s = (Ok l, s1) →
     get_duplicates_of hash hasher doc doc_id None s = (Ok C, s') →
     heap s' !! l = Some f →
     (∀ x, x ∈ C → is_Some (stored_fp s' x)) →
     ∃ R, get_duplicates_of hash hasher doc doc_id (Some m) s = (Ok R, s') ∧
       (∀ x, x ∈ R ↔
             x ∈ C ∧ ∃ fx, stored_fp s' x = Some fx ∧ (m < jaccard hasher f fx)%Q) ∧
       (∀ x fx, stored_fp s' x = Some fx →
                (jaccard hasher f fx == m)%Q → x ∉ R)).
Proof.
  split.
  - intros s pairs m Hst. unfold filter_candidates.
    destruct (filter_pairs_ok s m (elements pairs) ∅) as (R & HR & Hiff).
    { intros a b Hin. apply Hst. by apply elem_of_elements in Hin. }
    exists R. split; [done|].
    assert (∀ a b, (a, b) ∈ R ↔
                   (a, b) ∈ pairs ∧
                   ∃ fa fb, stored_fp s a = Some fa ∧ stored_fp s b = Some fb ∧
                            (m < jaccard hasher fa fb)%Q) as Hiff'.
    { intros a b. rewrite Hiff, elem_of_elements. split.
      - intros [H|?]; [by apply not_elem_of_empty in H|done].
      - by right. }
    split; [done|].
    intros a b fa fb Ha Hb Heq Hin. apply Hiff' in Hin as (_ & fa' & fb' & Ha' & Hb' & Hlt).
    rewrite Ha in Ha'. rewrite Hb in Hb'. simplify_eq.
    by apply (not_lt_of_eq _ _ Heq).
  - intros s doc doc_id m l s1 C s' f Hres Hnone Hf Hst.
    unfold get_duplicates_of in *. run Hres. rewrite (bind_ok _ _ _ _ _ Hres) in Hnone.
    unfold bind in Hnone |- *.
    destruct (bins_ l s1) as [[bands|e] s2]; [|done].
    destruct (collect hash bands ∅ s2) as [[C'|e] s3]; [|done].
    unfold ret in Hnone. injection Hnone as -> ->.
    destruct (filter_ids_ok s' m l f (elements C) ∅ Hf) as (R & HR & Hiff).
    { intros x Hin. apply Hst. by apply elem_of_elements in Hin. }
    exists R. split; [done|].
    assert (∀ x, x ∈ R ↔
                 x ∈ C ∧ ∃ fx, stored_fp s' x = Some fx ∧
                               (m < jaccard hasher f fx)%Q) as Hiff'.
    { intros x. rewrite Hiff, elem_of_elements. split.
      - intros [H|?]; [by apply not_elem_of_empty in H|done].
      - by right. }
    split; [done|].
    intros x fx Hx Heq Hin. apply Hiff' in Hin as (_ & fx' & Hx' & Hlt).
    rewrite Hx in Hx'. simplify_eq.
    by apply (not_lt_of_eq _ _ Heq).
Qed.
End Filtering.

(** ** The exhaustive scan *)

Lemma elem_of_combinations2 (l : list Z) a b :
  (a, b) ∈ combinations2 l ↔ ∃ p q, p < q ∧ l !! p = Some a ∧ l !! q = Some b.
Proof.
  induction l as [|c l IH]; simpl.
  - rewrite elem_of_nil. split; [done|]. by intros (p & q & _ & H & _).
  - rewrite elem_of_app, IH, list_elem_of_fmap. split.
    + intros [(y & Heq & Hy)|(p & q & Hpq & Hp & Hq)].
      * injection Heq as -> ->. apply list_elem_of_lookup in Hy as [q Hq].
        exists 0, (S q). split; [lia|]. done.
      * exists (S p), (S q). split; [lia|]. done.
    + intros (p & q & Hpq & Hp & Hq). destruct q as [|q]; [lia|].
      destruct p as [|p]; simpl in *.
      * left. exists b. injection Hp as ->. split; [done|].
        apply list_elem_of_lookup. by exists q.
      * right. exists p, q. split; [lia|]. done.
Qed.

Lemma elem_of_table_pairs (t : gmap Z (list Z)) pr :
  pr ∈ table_pairs t ↔
  ∃ k bucket, t !! k = Some bucket ∧ 1 < length bucket ∧ pr ∈ combinations2 bucket.
Proof.
  unfold table_pairs.
  apply (map_fold_weak_ind
           (λ (r : gset (Z * Z)) (m : gmap Z (list Z)),
              pr ∈ r ↔ ∃ k bucket, m !! k = Some bucket ∧ 1 < length bucket ∧
                                   pr ∈ combinations2 bucket)).
  - split; [by intros ?%not_elem_of_empty|].
    intros (k & bucket & H & _). by rewrite lookup_empty in H.
  - intros k bucket m r Hk IH. split.
    + intros Hin.
      assert (pr ∈ r ∨ (1 < length bucket ∧ pr ∈ combinations2 bucket)) as [Hr|[Hl Hc]].
      { case_decide; [|by left].
        apply elem_of_union in Hin as [?|Hc]; [by left|].
        right. split; [done|]. by apply elem_of_list_to_set in Hc. }
      * apply IH in Hr as (k' & bucket' & Hk' & Hl & Hc).
        exists k', bucket'. split; [|done].
        rewrite lookup_insert_ne; [done|]. intros <-. congruence.
      * exists k, bucket. split; [apply lookup_insert_eq|done].
    + intros (k' & bucket' & Hk' & Hl & Hc).
      destruct (decide (k' = k)) as [->|Hne].
      * rewrite lookup_insert_eq in Hk'. injection Hk' as <-.
        rewrite decide_True by done. apply elem_of_union. right.
        by apply elem_of_list_to_set.
      * rewrite lookup_insert_ne in Hk' by done.
        assert (pr ∈ r) as Hr by (apply IH; by exists k', bucket').
        case_decide; [apply elem_of_union; by left | done].
Qed.

Lemma elem_of_candidate_pairs_from tables pr : ∀ acc,
  pr ∈ fold_left (λ acc b, acc ∪ table_pairs b) tables acc ↔
  pr ∈ acc ∨ ∃ i t, tables !! i = Some t ∧ pr ∈ table_pairs t.
Proof.
  induction tables as [|t tables IH]; intros acc; simpl.
  - split; [by left|]. intros [?|(i & t & H & _)]; [done|]. by rewrite lookup_nil in H.
  - rewrite IH, elem_of_union. split.
    + intros [[?|?]|(i & t' & Hi & Hp)]; [by left| |].
      * right. by exists 0, t.
      * right. by exists (S i), t'.
    + intros [?|(i & t' & Hi & Hp)]; [by left; left|].
      destruct i as [|i]; simpl in Hi.
      * injection Hi as ->. by left; right.
      * right. by exists i, t'.
Qed.

Section Scan.
Variable hasher : MinHasher.

(** C6, amended. Without a threshold [get_all_duplicates] returns, and
    changes nothing, exactly the pairs [(a, b)] for which some bucket of
    some band lists [a] before [b]: every two ids that share a bucket are
    reported, and a pair found in several buckets in the same order is
    reported once. The orientation of a pair is the order in which the
    bucket lists its members. *)
Theorem get_all_duplicates_pairs s :
  ∃ R, get_all_duplicates hasher None s = (Ok R, s) ∧
    (∀ a b, (a, b) ∈ R ↔
            ∃ i k p q, p < q ∧ members s i k !! p = Some a ∧
                       members s i k !! q = Some b) ∧
    (∀ i k p q a b, p ≠ q → members s i k !! p = Some a →
                    members s i k !! q = Some b → (a, b) ∈ R ∨ (b, a) ∈ R).
Proof.
  eexists. split; [reflexivity|].
  assert (∀ a b, (a, b) ∈ candidate_pairs_of (bins s) ↔
                 ∃ i k p q, p < q ∧ members s i k !! p = Some a ∧
                            members s i k !! q = Some b) as Hiff.
  { intros a b. unfold candidate_pairs_of.
    rewrite elem_of_candidate_pairs_from. split.
    - intros [H|(i & t & Hi & Hp)]; [by apply not_elem_of_empty in H|].
      apply elem_of_table_pairs in Hp as (k & bucket & Hk & _ & Hc).
      apply elem_of_combinations2 in Hc as (p & q & Hpq & Hp & Hq).
      exists i, k, p, q. unfold members. rewrite Hi, Hk. done.
    - intros (i & k & p & q & Hpq & Hp & Hq). right.
      unfold members in Hp, Hq.
      destruct (bins s !! i) as [t|] eqn:Hi; [|by rewrite lookup_nil in Hp].
      destruct (t !! k) as [bucket|] eqn:Hk; simpl in *;
        [|by rewrite lookup_nil in Hp].
      exists i, t. split; [done|]. apply elem_of_table_pairs.
      exists k, bucket. split; [done|]. split.
      + apply lookup_lt_Some in Hq. lia.
      + apply elem_of_combinations2. by exists p, q. }
  split; [exact Hiff|].
  intros i k p q a b Hne Hp Hq.
  destruct (decide (p < q)).
  - left. apply Hiff. by exists i, k, p, q.
  - right. apply Hiff. exists i, k, q, p. split; [lia|done].
Qed.
End Scan.

(** ** Clearing *)

(** C9. [clear] replaces the bucket tables by [num_bands] empty ones and
    clears the memo table of the fingerprint provider; the store, the
    fingerprint objects and so the fingerprint of every document id are as
    before. *)
Theorem clear_keeps_the_store s :
  ∃ s', clear s = (Ok tt, s') ∧
    bins s' = replicate (num_bands s) ∅ ∧
    (∀ i k, members s' i k = []) ∧
    lru s' = ∅ ∧
    num_bands s' = num_bands s ∧
    fingerprints s' = fingerprints s ∧
    heap s' = heap s ∧
    ∀ doc_id, stored_fp s' doc_id = stored_fp s doc_id.
Proof.
  eexists. split; [reflexivity|]. simpl. repeat split.
  intros i k. unfold members. simpl.
  destruct (replicate (num_bands s) ∅ !! i) as [t|] eqn:H; [|done].
  apply lookup_replicate in H as [-> _]. by rewrite lookup_empty.
Qed.

(** ** Runs of the operations on a small cache *)

Example init_fresh_cache draws :
  init Demo.hasher {[ 1%positive := [1; 2; 3; 4]%Z ]} draws ∅ 2
  = Ok (Demo.fresh_cache draws).
Proof. reflexivity. Qed.

Example init_indivisible :
  init Demo.hasher ∅ [] ∅ 3 = Raise AssertionError.
Proof. reflexivity. Qed.

Lemma wf_fresh_cache draws : wf (Demo.fresh_cache draws).
Proof. split; simpl; lia. Qed.

(** C1, as stated, fails: the insertion bands [[1, 2, 3, 4]] as
    [(1, 2), (3, 4)], the query shuffles the same object to [[2, 3, 4, 1]]
    and looks in the buckets of [(2, 3)] and [(4, 1)], which are empty. *)
Lemma query_after_add_misses_itself :
  Demo.outcome
    (add_fingerprint PyHash.hash_tuple 1%positive 7%Z ;;;
     get_duplicates_of PyHash.hash_tuple Demo.hasher None (Some 7%Z) None)
    (Demo.fresh_cache [3; 2; 1; 0; 0; 0])
  = Ok ∅.
Proof. vm_compute. reflexivity. Qed.

Lemma add_then_query_finds_itself_witness :
  ∃ r s',
    (add_fingerprint PyHash.hash_tuple 1%positive 7%Z ;;;
     get_duplicates_of PyHash.hash_tuple Demo.hasher None (Some 7%Z) None)
      (Demo.fresh_cache [3; 2; 1; 3; 2; 1]) = (Ok r, s') ∧
    7%Z ∈ r.
Proof.
  destruct (add_then_query_finds_itself PyHash.hash_tuple Demo.hasher
              (Demo.fresh_cache [3; 2; 1; 3; 2; 1]) 1%positive [1; 2; 3; 4]%Z 7%Z None
              [1; 2; 3; 4]%Z [3; 2; 1] [1; 2; 3; 4]%Z [])
    as (r & s' & H & Hin & _);
    [apply wf_fresh_cache | reflexivity | reflexivity | reflexivity |].
  exists r, s'. split; [exact H|]. apply Hin.
  exists 0, [1; 2]%Z, [1; 2]%Z. repeat split; reflexivity.
Defined.

(** C2, as stated, fails: the removal shuffles the stored fingerprint to
    [[2, 3, 4, 1]], addresses the bucket of [(2, 3)] in band 0, which does
    not hold the id, and raises; the id stays in the store and in the bucket
    of [(1, 2)]. *)
Lemma add_then_remove_leaves_residue :
  let s' := Demo.after (add_fingerprint PyHash.hash_tuple 1%positive 7%Z ;;;
                        remove_id PyHash.hash_tuple 7%Z)
                       (Demo.fresh_cache [3; 2; 1; 0; 0; 0]) in
  Demo.outcome (add_fingerprint PyHash.hash_tuple 1%positive 7%Z ;;;
                remove_id PyHash.hash_tuple 7%Z)
               (Demo.fresh_cache [3; 2; 1; 0; 0; 0]) = Raise KeyError ∧
  fingerprints s' !! 7%Z = Some 1%positive ∧
  members s' 0 (PyHash.hash_tuple [1; 2]%Z) = [7%Z] ∧
  members (Demo.fresh_cache [3; 2; 1; 0; 0; 0]) 0 (PyHash.hash_tuple [1; 2]%Z) = [].
Proof. vm_compute. repeat split; reflexivity. Qed.

Lemma add_remove_round_trip_witness :
  ∃ s',
    (add_fingerprint PyHash.hash_tuple 1%positive 7%Z ;;;
     remove_id PyHash.hash_tuple 7%Z) (Demo.fresh_cache [3; 2; 1; 3; 2; 1])
    = (Ok tt, s') ∧
    fingerprints s' = fingerprints (Demo.fresh_cache [3; 2; 1; 3; 2; 1]) ∧
    ∀ i k, members s' i k = members (Demo.fresh_cache [3; 2; 1; 3; 2; 1]) i k.
Proof.
  destruct (add_remove_round_trip PyHash.hash_tuple
              (Demo.fresh_cache [3; 2; 1; 3; 2; 1]) 1%positive [1; 2; 3; 4]%Z 7%Z
              [1; 2; 3; 4]%Z [3; 2; 1] [1; 2; 3; 4]%Z [])
    as (r & s' & H & Hok & _);
    [apply wf_fresh_cache | reflexivity | reflexivity | | reflexivity | reflexivity |].
  { intros i k. destruct i as [|[|i]]; vm_compute; apply not_elem_of_nil. }
  destruct Hok as (-> & Hf & Hm).
  { intros i Hi. destruct i as [|[|i]]; [| |simpl in Hi; lia].
    - exists [1; 2]%Z, [1; 2]%Z. repeat split; reflexivity.
    - exists [3; 4]%Z, [3; 4]%Z. repeat split; reflexivity. }
  exists s'. split; [exact H|]. split; [exact Hf | exact Hm].
Defined.

(** C3, as stated, fails: [add_fingerprint] leaves the caller's list
    [[1, 2, 3, 4]] as [[2, 3, 4, 1]], and that is the stored fingerprint. *)
Lemma add_fingerprint_reorders_the_argument :
  let s := Demo.fresh_cache [0; 0; 0] in
  let s' := Demo.after (add_fingerprint PyHash.hash_tuple 1%positive 7%Z) s in
  heap s !! 1%positive = Some [1; 2; 3; 4]%Z ∧
  heap s' !! 1%positive = Some [2; 3; 4; 1]%Z ∧
  stored_fp s' 7%Z = Some [2; 3; 4; 1]%Z.
Proof. vm_compute. repeat split; reflexivity. Qed.

Lemma fingerprint_is_banded_in_place_witness :
  ∃ x', heap (add_fingerprint PyHash.hash_tuple 1%positive 7%Z
                (Demo.fresh_cache [0; 0; 0])).2 !! 1%positive = Some x' ∧
        stored_fp (add_fingerprint PyHash.hash_tuple 1%positive 7%Z
                     (Demo.fresh_cache [0; 0; 0])).2 7%Z = Some x' ∧
        x' ≡ₚ [1; 2; 3; 4]%Z.
Proof.
  destruct (fingerprint_is_banded_in_place PyHash.hash_tuple Demo.hasher
              (Demo.fresh_cache [0; 0; 0]) 1%positive [1; 2; 3; 4]%Z 7%Z)
    as ((_ & H) & _); [reflexivity|].
  exact H.
Defined.

Lemma strict_dedup_stores_and_gates_witness :
  ∃ s', add_fingerprint_strict_dedup PyHash.hash_tuple 1%positive 7%Z
          (Demo.fresh_cache [3; 2; 1; 0; 0; 0]) = (Ok tt, s') ∧
        fingerprints s' !! 7%Z = Some 1%positive ∧
        7%Z ∈ members s' 0 (PyHash.hash_tuple [2; 3]%Z) ∧
        7%Z ∈ members s' 1 (PyHash.hash_tuple [4; 1]%Z).
Proof.
  destruct (strict_dedup_stores_and_gates PyHash.hash_tuple
              (Demo.fresh_cache [3; 2; 1; 0; 0; 0]) 1%positive [1; 2; 3; 4]%Z 7%Z
              [1; 2; 3; 4]%Z [0; 0; 0] [2; 3; 4; 1]%Z [])
    as (s' & H & Hf & _ & _ & Hins);
    [apply wf_fresh_cache | reflexivity | reflexivity | reflexivity |].
  destruct Hins as [Hb _].
  { repeat constructor; vm_compute; lia. }
  exists s'. split; [exact H|]. split; [rewrite Hf; reflexivity|].
  split.
  - destruct (Hb 0) as (b & Hb0 & Hin); [simpl; lia|].
    vm_compute in Hb0. injection Hb0 as <-. exact Hin.
  - destruct (Hb 1) as (b & Hb1 & Hin); [simpl; lia|].
    vm_compute in Hb1. injection Hb1 as <-. exact Hin.
Defined.

Lemma lenient_dedup_threshold_witness :
  ∃ s', add_fingerprint_lenient_dedup PyHash.hash_tuple 1%positive 7%Z
          (Demo.fresh_cache [3; 2; 1; 0; 0; 0]) = (Ok tt, s') ∧
        fingerprints s' !! 7%Z = Some 1%positive ∧
        7%Z ∈ members s' 0 (PyHash.hash_tuple [2; 3]%Z) ∧
        7%Z ∈ members s' 1 (PyHash.hash_tuple [4; 1]%Z).
Proof.
  destruct (lenient_dedup_threshold PyHash.hash_tuple
              (Demo.fresh_cache [3; 2; 1; 0; 0; 0]) 1%positive [1; 2; 3; 4]%Z 7%Z
              [1; 2; 3; 4]%Z [0; 0; 0] [2; 3; 4; 1]%Z [])
    as (_ & s' & H & Hf & _ & _ & Hins);
    [apply wf_fresh_cache | reflexivity | reflexivity | reflexivity |].
  destruct Hins as [Hb _].
  { vm_compute. lia. }
  exists s'. split; [exact H|]. split; [rewrite Hf; reflexivity|].
  split.
  - destruct (Hb 0) as (b & Hb0 & Hin); [simpl; lia|].
    vm_compute in Hb0. injection Hb0 as <-. exact Hin.
  - destruct (Hb 1) as (b & Hb1 & Hin); [simpl; lia|].
    vm_compute in Hb1. injection Hb1 as <-. exact Hin.
Defined.

(** C6, as stated, fails: documents 0 and 8 share the bucket of [(1, 2)] in
    band 0, which lists 0 first, and the bucket of [(3, 4)] in band 1, which
    lists 8 first (CPython iterates the sets [{0, 8}] built in these two
    orders differently); the scan returns the pair in both orientations. *)
Lemma scan_reports_both_orientations :
  Demo.outcome
    (add_fingerprint PyHash.hash_tuple 1%positive 0%Z ;;;
     add_fingerprint PyHash.hash_tuple 2%positive 8%Z ;;;
     add_fingerprint PyHash.hash_tuple 3%positive 0%Z ;;;
     get_all_duplicates Demo.hasher None)
    Demo.scan_cache
  = Ok {[ (0%Z, 8%Z); (8%Z, 0%Z) ]}.
Proof. vm_compute. reflexivity. Qed.

(** C8, as stated, fails: the removal bands the stored fingerprint as
    [(2, 1), (3, 4)]; the bucket of [(2, 1)] in band 0 does not hold the id,
    [remove_id] raises there, and the id stays in the bucket of [(3, 4)] in
    band 1 and in the store. *)
Lemma remove_id_stops_at_the_first_miss :
  let s := Demo.after (add_fingerprint PyHash.hash_tuple 1%positive 7%Z)
                      (Demo.fresh_cache [3; 2; 1; 3; 2; 0]) in
  let s' := Demo.after (remove_id PyHash.hash_tuple 7%Z) s in
  Demo.outcome (remove_id PyHash.hash_tuple 7%Z) s = Raise KeyError ∧
  stored_fp s' 7%Z = Some [2; 1; 3; 4]%Z ∧
  members s 0 (PyHash.hash_tuple [2; 1]%Z) = [] ∧
  members s' 1 (PyHash.hash_tuple [3; 4]%Z) = [7%Z] ∧
  fingerprints s' !! 7%Z = Some 1%positive.
Proof. vm_compute. repeat split; reflexivity. Qed.

Lemma remove_id_aborts_at_missing_bucket_witness :
  let s := Demo.after (add_fingerprint PyHash.hash_tuple 1%positive 7%Z)
                      (Demo.fresh_cache [3; 2; 1; 2; 2; 1]) in
  ∃ s', remove_id PyHash.hash_tuple 7%Z s = (Raise KeyError, s') ∧
        fingerprints s' = fingerprints s ∧
        members s' 0 (PyHash.hash_tuple [1; 2]%Z) = [] ∧
        members s' 1 (PyHash.hash_tuple [3; 4]%Z) = [7%Z].
Proof.
  intros s.
  destruct (remove_id_aborts_at_missing_bucket PyHash.hash_tuple s 7%Z 1%positive
              [1; 2; 3; 4]%Z [1; 2; 4; 3]%Z [])
    as (s' & H & Hf & Hm);
    [split; vm_compute; lia | reflexivity | reflexivity | reflexivity
    | vm_compute; lia |].
  exists s'. split; [exact H|]. split; [exact Hf|]. split.
  - rewrite Hm. vm_compute. reflexivity.
  - rewrite Hm. vm_compute. reflexivity.
Defined.

(** C10, as stated, fails: [get_duplicates_of] shuffles the stored
    fingerprint of the id it is asked about and, reading the tables, creates
    the empty bucket of [(2, 3)] in band 0. *)
Lemma query_changes_the_state :
  let s := Demo.after (add_fingerprint PyHash.hash_tuple 1%positive 7%Z)
                      (Demo.fresh_cache [3; 2; 1; 0; 0; 0]) in
  let s' := Demo.after (get_duplicates_of PyHash.hash_tuple Demo.hasher
                          None (Some 7%Z) None) s in
  stored_fp s 7%Z = Some [1; 2; 3; 4]%Z ∧
  stored_fp s' 7%Z = Some [2; 3; 4; 1]%Z ∧
  (bins s !! 0 ≫= λ t, t !! PyHash.hash_tuple [2; 3]%Z) = None ∧
  (bins s' !! 0 ≫= λ t, t !! PyHash.hash_tuple [2; 3]%Z) = Some [].
Proof. vm_compute. repeat split; reflexivity. Qed.

Lemma similarity_filter_is_strict_witness :
  let s := Demo.after (add_fingerprint PyHash.hash_tuple 1%positive 7%Z)
                      (Demo.fresh_cache [3; 2; 1; 3; 2; 1]) in
  ∃ R, filter_candidates Demo.hasher {[ (7%Z, 7%Z) ]} (1 # 2)%Q s = (Ok R, s) ∧
       ((7%Z, 7%Z) ∈ R ↔
        (7%Z, 7%Z) ∈ ({[ (7%Z, 7%Z) ]} : gset (Z * Z)) ∧
        ∃ fa fb, stored_fp s 7%Z = Some fa ∧ stored_fp s 7%Z = Some fb ∧
                 (1 # 2 < jaccard Demo.hasher fa fb)%Q).
Proof.
  intros s.
  destruct (proj1 (similarity_filter_is_strict PyHash.hash_tuple Demo.hasher)
              s {[ (7%Z, 7%Z) ]} (1 # 2)%Q) as (R & H & Hiff & _).
  { intros a b Hin. apply elem_of_singleton in Hin. injection Hin as -> ->.
    split; exists [1; 2; 3; 4]%Z; reflexivity. }
  exists R. split; [exact H|]. apply Hiff.
Defined.

(** * Further properties of the cache *)

(** ** Construction and banding *)

(** X1. [Cache.__init__] fails with [ZeroDivisionError] for no bands and
    with [AssertionError] when the number of bands does not divide the
    number of seeds; otherwise it builds a cache with one empty table per
    band, an empty store, and [band_width * num_bands = num_seeds]. *)
Theorem init_builds_a_cache hasher h t c nbands :
  match init hasher h t c nbands with
  | Ok s =>
      nbands ≠ 0 ∧ num_seeds hasher `mod` nbands = 0 ∧
      wf s ∧ num_bands s = nbands ∧
      band_width s * num_bands s = num_seeds hasher ∧
      fingerprints s = ∅ ∧ heap s = h ∧
      (∀ i k, members s i k = [])
  | Raise e =>
      (nbands = 0 ∧ e = ZeroDivisionError) ∨
      (nbands ≠ 0 ∧ num_seeds hasher `mod` nbands ≠ 0 ∧ e = AssertionError)
  end.
Proof.
  unfold init. destruct (decide (nbands = 0)) as [Hz|Hnz]; [by left|].
  destruct (decide (num_seeds hasher `mod` nbands = 0)) as [Hd|Hd]; [|by right].
  split; [done|]. split; [done|]. split.
  { split; simpl; [lia | by rewrite length_replicate]. }
  split; [done|]. split.
  { simpl. pose proof (Nat.div_mod (num_seeds hasher) nbands Hnz). nia. }
  split; [done|]. split; [done|].
  - intros i k. unfold members. simpl.
    destruct (replicate nbands ∅ !! i) as [d|] eqn:H; [|done].
    apply lookup_replicate in H as [-> _]. by rewrite lookup_empty.
Qed.

Lemma concat_chunks sizes : ∀ x : list Z,
  concat (chunks sizes x) = take (sum_list sizes) x.
Proof.
  induction sizes as [|n sizes IH]; intros x; simpl; [done|].
  rewrite IH. rewrite <- (take_drop n x) at 3.
  destruct (decide (n ≤ length x)) as [Hle|Hgt].
  - rewrite take_app_add'; [done|]. rewrite length_take. lia.
  - rewrite drop_ge by lia. rewrite take_nil, !app_nil_r.
    rewrite take_ge; [|lia]. rewrite (take_ge x); [done|lia].
Qed.

Lemma sum_list_append (l1 l2 : list nat) :
  sum_list (l1 ++ l2) = sum_list l1 + sum_list l2.
Proof. induction l1 as [|n l1 IH]; simpl; [done|]. rewrite IH. lia. Qed.

Lemma sum_section_sizes total n : 0 < n → sum_list (section_sizes total n) = total.
Proof.
  intros Hn. unfold section_sizes. rewrite sum_list_append, !sum_list_replicate.
  pose proof (Nat.div_mod total n ltac:(lia)).
  pose proof (Nat.mod_upper_bound total n ltac:(lia)). nia.
Qed.

Lemma lengths_chunks sizes : ∀ x : list Z,
  sum_list sizes ≤ length x → length <$> chunks sizes x = sizes.
Proof.
  induction sizes as [|n sizes IH]; intros x Hle; simpl in *; [done|].
  rewrite length_take, IH by (rewrite length_drop; lia). f_equal. lia.
Qed.

Lemma concat_bands_of n (x : list Z) : 0 < n → concat (bands_of n x) = x.
Proof.
  intros Hn. unfold bands_of. rewrite concat_chunks, sum_section_sizes by done.
  apply firstn_all.
Qed.

Lemma lengths_bands_of n (x : list Z) :
  0 < n → length <$> bands_of n x = section_sizes (length x) n.
Proof.
  intros Hn. unfold bands_of. apply lengths_chunks.
  by rewrite sum_section_sizes.
Qed.

Lemma section_sizes_even n w : 0 < n → section_sizes (n * w) n = replicate n w.
Proof.
  intros Hn. unfold section_sizes.
  replace (n * w) with (w * n) by lia.
  rewrite Nat.Div0.mod_mul, Nat.div_mul by lia. simpl. by rewrite Nat.sub_0_r.
Qed.

(** X2. On a cache with at least one band, [bins_] leaves in the fingerprint
    object a permutation of its elements and yields [num_bands] bands,
    numbered from 0, that are the consecutive pieces of the shuffled
    fingerprint: put end to end they give it back, their widths are those
    of [numpy.array_split], and when the length is [num_bands * w] every
    band has [w] elements. The tables and the store are not touched. *)
Theorem bins__bands_the_shuffled_fingerprint s l x :
  wf s → heap s !! l = Some x →
  ∃ bands s' x',
    bins_ l s = (Ok (enumerate bands), s') ∧
    length bands = num_bands s ∧
    heap s' !! l = Some x' ∧ x' ≡ₚ x ∧ concat bands = x' ∧
    length <$> bands = section_sizes (length x) (num_bands s) ∧
    (∀ w, length x = num_bands s * w → Forall (λ b, length b = w) bands) ∧
    (∀ i b, (i, b) ∈ enumerate bands ↔ bands !! i = Some b) ∧
    bins s' = bins s ∧ fingerprints s' = fingerprints s.
Proof.
  intros [Hn Hlen] Hl. destruct (shuffle x (tape s)) as [x' t'] eqn:Hs.
  assert (x' ≡ₚ x) as Hp by (rewrite <- (shuffle_perm x (tape s)), Hs; done).
  exists (bands_of (num_bands s) x'),
         (set_tape t' (set_heap (<[l := x']> (heap s)) s)), x'.
  split; [exact (bins__ok s l x x' t' Hl Hn Hs)|].
  split; [by apply length_bands_of|].
  split; [simpl; apply lookup_insert_eq|].
  split; [done|]. split; [by apply concat_bands_of|].
  assert (length x' = length x) as Hlx by (by rewrite Hp).
  split; [rewrite lengths_bands_of by done; by rewrite Hlx|].
  split.
  { intros w Hw. apply (Forall_fmap length (λ n, n = w)).
    rewrite lengths_bands_of, Hlx, Hw, section_sizes_even by done.
    by apply Forall_replicate. }
  split; [|done].
  intros i b. unfold enumerate. rewrite elem_of_enumerate_from, Nat.sub_0_r.
  split; [by intros [_ ?] | intros ?; split; [lia|done]].
Qed.

Lemma bins__bands_the_shuffled_fingerprint_witness :
  ∃ bands s' x',
    bins_ 1%positive (Demo.fresh_cache [0; 0; 0]) = (Ok (enumerate bands), s') ∧
    length bands = 2 ∧ concat bands = x' ∧ x' ≡ₚ [1; 2; 3; 4]%Z.
Proof.
  destruct (bins__bands_the_shuffled_fingerprint (Demo.fresh_cache [0; 0; 0])
              1%positive [1; 2; 3; 4]%Z)
    as (bands & s' & x' & H & Hn & _ & Hp & Hc & _);
    [split; simpl; lia | reflexivity |].
  exists bands, s', x'. done.
Defined.

(** ** Insertion *)

Lemma length_enumerate_from {A} (xs : list A) start :
  length (enumerate_from start xs) = length xs.
Proof. revert start. induction xs as [|x xs IH]; intros start; simpl; auto. Qed.

Section MoreInsertion.
Variable hash : list Z → Z.

(** X3. On a well-formed cache [add_fingerprint] cannot fail. It records
    the (shuffled) fingerprint for [doc_id] and leaves the other store
    entries alone; [doc_id] becomes a member of the addressed bucket in
    every band, whatever those buckets held; no id leaves a bucket and no
    other id enters one. *)
Theorem add_fingerprint_inserts_everywhere s l x doc_id :
  wf s → heap s !! l = Some x →
  ∃ s' x',
    add_fingerprint hash l doc_id s = (Ok tt, s') ∧
    stored_fp s' doc_id = Some x' ∧ x' ≡ₚ x ∧
    (∀ d, d ≠ doc_id → fingerprints s' !! d = fingerprints s !! d) ∧
    (∀ i, i < num_bands s →
          ∃ b, bands_of (num_bands s) x' !! i = Some b ∧
               doc_id ∈ members s' i (hash b)) ∧
    (∀ i k y, y ∈ members s i k → y ∈ members s' i k) ∧
    (∀ i k y, y ≠ doc_id → y ∈ members s' i k → y ∈ members s i k) ∧
    wf s'.
Proof.
  intros Hwf Hl. pose proof Hwf as [Hn Hlen].
  destruct (shuffle x (tape s)) as [x' t'] eqn:Hs.
  destruct (add_fingerprint_ok hash s l x x' t' doc_id Hwf Hl Hs)
    as (s' & H & Hh & Ht & Hf & Hnb & Hlb & HM).
  exists s', x'. split; [done|]. split.
  { unfold stored_fp. rewrite Hf, lookup_insert_eq. simpl. rewrite Hh.
    apply lookup_insert_eq. }
  split; [rewrite <- (shuffle_perm x (tape s)), Hs; done|].
  split; [intros d Hd; rewrite Hf; by apply lookup_insert_ne|].
  split.
  { intros i Hi. destruct (lookup_bands_of (num_bands s) x' i Hn Hi) as [b Hb].
    exists b. split; [done|]. rewrite HM, Hb, decide_True by done.
    apply elem_of_set_add. }
  split.
  { intros i k y Hy. rewrite HM. destruct (bands_of (num_bands s) x' !! i); [|done].
    case_decide; [|done]. apply elem_of_set_add_iff. by right. }
  split.
  { intros i k y Hne Hy. rewrite HM in Hy.
    destruct (bands_of (num_bands s) x' !! i); [|done].
    case_decide; [|done]. apply elem_of_set_add_iff in Hy as [?|?]; done. }
  split; [lia | lia].
Qed.

Lemma insert_after_check s0 sB l x1 x2 t2 doc_id :
  wf s0 → same_index s0 sB → heap s0 !! l = Some x1 → shuffle x1 (tape s0) = (x2, t2) →
  ∃ sC, (bands <- bins_ l ;; for_ bands (bucket_add hash doc_id)) sB = (Ok tt, sC) ∧
    fingerprints sC = fingerprints s0 ∧ heap sC = <[l := x2]> (heap s0) ∧
    ∀ i, i < num_bands s0 →
         ∃ b, bands_of (num_bands s0) x2 !! i = Some b ∧ doc_id ∈ members sC i (hash b).
Proof.
  intros [Hn Hlen] [(E1&E2&E3&E4&E5&E6&E7) MB] Hl Hs.
  destruct (insert_pass_ok hash sB l x1 x2 t2 doc_id)
    as (sC & HC & C1 & C2 & C3 & C4 & C5 & MC).
  { split; [rewrite E4; lia | rewrite E7, E4; lia]. }
  { by rewrite E1. }
  { by rewrite E2. }
  exists sC. split; [done|]. split; [by rewrite C3, E6|].
  split; [by rewrite C1, E1|].
  intros i Hi. destruct (lookup_bands_of (num_bands s0) x2 i Hn Hi) as [b Hb].
  exists b. split; [done|]. rewrite MC, E4, Hb, decide_True by done.
  apply elem_of_set_add.
Qed.

(** X4. With fewer than four bands [add_fingerprint_lenient_dedup] never
    suppresses an insertion: the count of colliding bands cannot reach
    [collision_threshold], so [doc_id] enters the addressed bucket of every
    band however many buckets were occupied. *)
Theorem lenient_dedup_inserts_below_four_bands s l x doc_id :
  wf s → num_bands s < collision_threshold → heap s !! l = Some x →
  ∃ s' x',
    add_fingerprint_lenient_dedup hash l doc_id s = (Ok tt, s') ∧
    stored_fp s' doc_id = Some x' ∧ x' ≡ₚ x ∧
    ∀ i, i < num_bands s →
         ∃ b, bands_of (num_bands s) x' !! i = Some b ∧
              doc_id ∈ members s' i (hash b).
Proof.
  intros Hwf Hfew Hl. pose proof Hwf as [Hn Hlen].
  destruct (shuffle x (tape s)) as [x1 t1] eqn:Hs1.
  destruct (shuffle x1 t1) as [x2 t2] eqn:Hs2.
  unfold add_fingerprint_lenient_dedup.
  set (s0 := set_fingerprints (<[doc_id := l]> (fingerprints s)) s).
  assert (modify (λ s, set_fingerprints (<[doc_id := l]> (fingerprints s)) s) s
          = (Ok tt, s0)) as H0 by done.
  run H0. run (bins__ok s0 l x x1 t1 Hl Hn Hs1).
  set (sA := set_tape t1 (set_heap (<[l:=x1]> (heap s0)) s0)).
  destruct (lenient_check_ok hash (enumerate (bands_of (num_bands s0) x1)) sA 0)
    as (r & sB & HB & SB & Hr).
  { apply in_range_enumerate. simpl. rewrite length_bands_of by done. lia. }
  run HB.
  assert (r < collision_threshold) as Hlt.
  { apply Hr; [unfold collision_threshold; lia|]. simpl.
    pose proof (length_filter (occupied hash sA)
                  (enumerate (bands_of (num_bands s0) x1))) as Hle.
    assert (length (enumerate (bands_of (num_bands s0) x1)) = num_bands s) as Hlb.
    { unfold enumerate. rewrite length_enumerate_from. by apply length_bands_of. }
    change (num_bands s0) with (num_bands s) in *.
    unfold collision_threshold in *. lia. }
  rewrite decide_True by done.
  destruct (insert_after_check sA sB l x1 x2 t2 doc_id)
    as (sC & HC & Cf & Ch & Cm); [done | done | apply lookup_insert_eq | done |].
  exists sC, x2. split; [done|]. split.
  { unfold stored_fp. rewrite Cf. simpl. rewrite lookup_insert_eq. simpl.
    rewrite Ch. apply lookup_insert_eq. }
  split; [|exact Cm].
  rewrite <- (shuffle_perm x (tape s)), Hs1. simpl.
  rewrite <- (shuffle_perm x1 t1), Hs2. done.
Qed.
End MoreInsertion.

(** ** Removal *)

Section MoreRemoval.
Variable hash : list Z → Z.

(** X5. [remove_id] of an id that is not in the store raises [KeyError]
    before anything is shuffled or read: the state is exactly as before. *)
Theorem remove_id_unknown s doc_id :
  fingerprints s !! doc_id = None →
  remove_id hash doc_id s = (Raise KeyError, s).
Proof. intros H. unfold remove_id, bind, get. by rewrite H. Qed.

(** X6. When the banding that [remove_id] draws addresses in every band a
    bucket that holds [doc_id], the removal succeeds: [doc_id] leaves the
    store and each of those buckets, every other store entry stays, and no
    other id enters or leaves any bucket. *)
Theorem remove_id_succeeds_when_buckets_hold_it s doc_id l x x1 t1 :
  wf s → fingerprints s !! doc_id = Some l → heap s !! l = Some x →
  shuffle x (tape s) = (x1, t1) →
  (∀ i b, bands_of (num_bands s) x1 !! i = Some b → doc_id ∈ members s i (hash b)) →
  ∃ s', remove_id hash doc_id s = (Ok tt, s') ∧
    fingerprints s' = delete doc_id (fingerprints s) ∧
    (∀ i b, bands_of (num_bands s) x1 !! i = Some b → doc_id ∉ members s' i (hash b)) ∧
    (∀ i k y, y ≠ doc_id → y ∈ members s' i k ↔ y ∈ members s i k) ∧
    (∀ i k, doc_id ∈ members s' i k → doc_id ∈ members s i k).
Proof.
  intros Hwf Hd Hl Hs1 Hall. pose proof Hwf as [Hn Hlen].
  unfold remove_id. unfold bind at 1, get at 1. rewrite Hd.
  run (bins__ok s l x x1 t1 Hl Hn Hs1).
  set (bands := bands_of (num_bands s) x1) in *.
  set (sA := set_tape t1 (set_heap (<[l:=x1]> (heap s)) s)).
  destruct (for_remove_run hash doc_id bands 0 sA)
    as (sB & HB & (E1&E2&E3&E4&E5&E6&E7) & MB).
  { simpl. unfold bands. rewrite length_bands_of by done. lia. }
  assert (held_prefix hash sA doc_id 0 bands = length bands) as Hfull.
  { apply held_prefix_full. intros j c Hc. simpl. by apply Hall. }
  rewrite Hfull, decide_True in HB by done. rewrite Hfull, firstn_all in MB.
  run HB. eexists. split; [reflexivity|]. simpl.
  split; [by rewrite E6|].
  assert (∀ i k, members sB i k
                 = match bands !! i with
                   | Some b => if decide (k = hash b)
                               then filter (λ y, y ≠ doc_id) (members s i k)
                               else members s i k
                   | None => members s i k
                   end) as HM.
  { intros i k. rewrite MB, band_at_0. done. }
  split.
  { intros i b Hb. change (doc_id ∉ members sB i (hash b)).
    rewrite HM, Hb, decide_True by done. apply elem_of_filter_ne. }
  split.
  { intros i k y Hy. change (y ∈ members sB i k ↔ y ∈ members s i k).
    rewrite HM. destruct (bands !! i); [|done]. case_decide; [|done].
    rewrite list_elem_of_filter. tauto. }
  intros i k. change (doc_id ∈ members sB i k → doc_id ∈ members s i k).
  rewrite HM. destruct (bands !! i); [|done]. case_decide; [|done].
  rewrite list_elem_of_filter. tauto.
Qed.

(** X7. After a removal that succeeded, the id is gone from the store, and
    removing it again raises [KeyError] and changes nothing. *)
Theorem remove_id_twice s s' doc_id :
  remove_id hash doc_id s = (Ok tt, s') →
  fingerprints s' !! doc_id = None ∧
  remove_id hash doc_id s' = (Raise KeyError, s').
Proof.
  intros H.
  assert (fingerprints s' !! doc_id = None) as Hgone.
  { unfold remove_id in H. unfold bind at 1, get at 1 in H.
    destruct (fingerprints s !! doc_id) as [l|]; [|done].
    unfold bind at 1 in H. destruct (bins_ l s) as [[bands|e] s1]; [|done].
    unfold bind in H.
    destruct (for_ bands (bucket_remove hash doc_id) s1) as [[u|e] s2]; [|done].
    unfold modify in H. injection H as <-. simpl. apply lookup_delete_eq. }
  split; [done|]. unfold remove_id, bind, get. by rewrite Hgone.
Qed.
End MoreRemoval.

(** ** Queries *)

Section MoreQueries.
Variable hash : list Z → Z.
Variable hasher : MinHasher.

(** X8. [get_duplicates_of] with no document and no id, or with no
    document and an id that is not in the store, raises [ValueError] (not
    [KeyError]) and leaves the state as it is. *)
Theorem get_duplicates_of_needs_a_fingerprint s doc_id min_jaccard :
  (∀ d, doc_id = Some d → fingerprints s !! d = None) →
  get_duplicates_of hash hasher None doc_id min_jaccard s = (Raise ValueError, s).
Proof.
  intros H. unfold get_duplicates_of, resolve. unfold bind, get.
  destruct doc_id as [d|]; simpl; [|done]. by rewrite (H d eq_refl).
Qed.

(** X9. For an id of the store, [get_duplicates_of] without a threshold
    bands the stored fingerprint (a document given besides is ignored) and
    returns exactly the ids that are members of a bucket the banding
    addresses: the union of [num_bands] buckets, one per band. *)
Theorem get_duplicates_of_is_the_union_of_buckets s doc doc_id l x x1 t1 :
  wf s → fingerprints s !! doc_id = Some l → heap s !! l = Some x →
  shuffle x (tape s) = (x1, t1) →
  ∃ r s', get_duplicates_of hash hasher doc (Some doc_id) None s = (Ok r, s') ∧
    (∀ y, y ∈ r ↔ addressed_members hash s (bands_of (num_bands s) x1) y) ∧
    stored_fp s' doc_id = Some x1.
Proof.
  intros [Hn Hlen] Hd Hl Hs1. unfold get_duplicates_of.
  assert (resolve hasher doc (Some doc_id) s = (Ok l, s)) as HR.
  { unfold resolve, bind, get. simpl. by rewrite Hd. }
  run HR. run (bins__ok s l x x1 t1 Hl Hn Hs1).
  set (sA := set_tape t1 (set_heap (<[l:=x1]> (heap s)) s)).
  destruct (collect_ok hash (enumerate (bands_of (num_bands s) x1)) sA ∅)
    as (r & sB & HB & [(E1&E2&E3&E4&E5&E6&E7) MB] & Hr).
  { apply in_range_enumerate. simpl. rewrite length_bands_of by done. lia. }
  run HB. exists r, sB. split; [done|]. split.
  - intros y. rewrite Hr. unfold addressed_members. split.
    + intros [H|(i & b & Hin & Hy)]; [by apply not_elem_of_empty in H|].
      apply elem_of_enumerate_from in Hin as [_ Hin]. rewrite Nat.sub_0_r in Hin.
      by exists i, b.
    + intros (i & b & Hb & Hy). right. exists i, b. split; [|done].
      apply elem_of_enumerate_from. split; [lia|]. by rewrite Nat.sub_0_r.
  - unfold stored_fp. rewrite E6, E1. simpl. rewrite Hd. simpl.
    apply lookup_insert_eq.
Qed.
End MoreQueries.

(** ** Bucket groups of a query fingerprint *)

Lemma occupied_nonempty hash s i b :
  occupied hash s (i, b) ↔ members s i (hash b) ≠ [].
Proof.
  unfold occupied. simpl. destruct (members s i (hash b)); simpl; split; try done; lia.
Qed.

Section Groups.
Variable hash : list Z → Z.

Lemma query_groups_ok bands : ∀ s acc,
  in_range s bands →
  ∃ r s', query_groups hash bands acc s = (Ok r, s') ∧ same_index s s' ∧
    ∀ g, g ∈ r ↔ g ∈ acc ∨
                 ∃ i b, (i, b) ∈ bands ∧ members s i (hash b) = g ∧ g ≠ [].
Proof.
  induction bands as [|[i b] bands IH]; intros s acc Hr; simpl.
  - exists acc, s. split; [done|]. split; [apply same_index_refl|].
    intros g. split; [auto|]. intros [?|(?&?&H&_)]; [done|]. by apply elem_of_nil in H.
  - inversion Hr as [|? ? Hi Hr']; subst; simpl in *.
    destruct (getitem_ok s i (hash b) Hi) as (s1 & H1 & S1).
    run H1.
    assert (in_range s1 bands) as Hr1.
    { eapply in_range_same; [|done]. by destruct S1 as [(?&?&?&?&?&?&?) _]. }
    destruct (decide (1 ≤ length (members s i (hash b)))) as [Hocc|Hfree].
    + destruct (IH s1 (acc ∪ {[members s i (hash b)]}) Hr1) as (r & s2 & H2 & S2 & Hc).
      exists r, s2. split; [done|]. split; [by eapply same_index_trans|].
      intros g. rewrite Hc, elem_of_union, elem_of_singleton. split.
      * intros [[?| ->]|(i' & b' & Hin & Hg & Hne)]; [by left| |].
        -- right. exists i, b. split; [left|]. split; [done|].
           by apply (occupied_nonempty hash s i b).
        -- right. exists i', b'. split; [by right|]. by rewrite <- (proj2 S1).
      * intros [?|(i' & b' & Hin & Hg & Hne)]; [by left; left|].
        apply elem_of_cons in Hin as [Heq|Hin].
        -- injection Heq as -> ->. by left; right.
        -- right. exists i', b'. split; [done|]. by rewrite (proj2 S1).
    + destruct (IH s1 acc Hr1) as (r & s2 & H2 & S2 & Hc).
      exists r, s2. split; [done|]. split; [by eapply same_index_trans|].
      intros g. rewrite Hc. split.
      * intros [?|(i' & b' & Hin & Hg & Hne)]; [by left|].
        right. exists i', b'. split; [by right|]. by rewrite <- (proj2 S1).
      * intros [?|(i' & b' & Hin & Hg & Hne)]; [by left|].
        apply elem_of_cons in Hin as [Heq|Hin].
        -- injection Heq as -> ->. exfalso. apply Hfree.
           apply (occupied_nonempty hash s i b). by rewrite Hg.
        -- right. exists i', b'. split; [done|]. by rewrite (proj2 S1).
Qed.

Lemma query_frequency_ok bands : ∀ s acc,
  in_range s bands →
  ∃ s', query_frequency hash bands acc s
        = (Ok (acc ++ ((λ band, [members s band.1 (hash band.2)])
                         <$> filter (occupied hash s) bands)), s') ∧
    same_index s s'.
Proof.
  induction bands as [|[i b] bands IH]; intros s acc Hr; simpl.
  - exists s. split; [|apply same_index_refl]. by rewrite app_nil_r.
  - inversion Hr as [|? ? Hi Hr']; subst; simpl in *.
    destruct (getitem_ok s i (hash b) Hi) as (s1 & H1 & S1).
    run H1.
    assert (in_range s1 bands) as Hr1.
    { eapply in_range_same; [|done]. by destruct S1 as [(?&?&?&?&?&?&?) _]. }
    assert ((λ band : nat * list Z, [members s1 band.1 (hash band.2)])
              <$> filter (occupied hash s1) bands
            = (λ band, [members s band.1 (hash band.2)])
              <$> filter (occupied hash s) bands) as Hsame.
    { rewrite (filter_occupied_same hash s s1 bands (proj2 S1)).
      apply list_fmap_ext. intros j band _. by rewrite (proj2 S1). }
    rewrite filter_cons. unfold occupied at 1. simpl.
    destruct (decide (1 ≤ length (members s i (hash b)))) as [Hocc|Hfree].
    + destruct (IH s1 (acc ++ [[members s i (hash b)]]) Hr1) as (s2 & H2 & S2).
      exists s2. split; [|by eapply same_index_trans].
      rewrite H2, Hsame. simpl. by rewrite <- app_assoc.
    + destruct (IH s1 acc Hr1) as (s2 & H2 & S2).
      exists s2. split; [|by eapply same_index_trans]. by rewrite H2, Hsame.
Qed.

(** X10. [add_query_fingerprint_get_duplicates] returns one group for each
    occupied bucket that the banding of the fingerprint addresses: the tuple
    of all members of that bucket. Empty buckets give no group, so no group
    is empty, and the buckets keep their members. *)
Theorem query_groups_are_whole_buckets s l x x1 t1 :
  wf s → heap s !! l = Some x → shuffle x (tape s) = (x1, t1) →
  ∃ r s', add_query_fingerprint_get_duplicates hash l s = (Ok r, s') ∧
    (∀ g, g ∈ r ↔
          g ≠ [] ∧ ∃ i b, bands_of (num_bands s) x1 !! i = Some b ∧
                          members s i (hash b) = g) ∧
    (∀ i k, members s' i k = members s i k).
Proof.
  intros [Hn Hlen] Hl Hs1. unfold add_query_fingerprint_get_duplicates.
  run (bins__ok s l x x1 t1 Hl Hn Hs1).
  set (sA := set_tape t1 (set_heap (<[l:=x1]> (heap s)) s)).
  destruct (query_groups_ok (enumerate (bands_of (num_bands s) x1)) sA ∅)
    as (r & sB & HB & [_ MB] & Hr).
  { apply in_range_enumerate. simpl. rewrite length_bands_of by done. lia. }
  exists r, sB. split; [done|]. split; [|exact MB].
  intros g. rewrite Hr. split.
  - intros [H|(i & b & Hin & Hg & Hne)]; [by apply not_elem_of_empty in H|].
    apply elem_of_enumerate_from in Hin as [_ Hin]. rewrite Nat.sub_0_r in Hin.
    split; [done|]. by exists i, b.
  - intros (Hne & i & b & Hb & Hg). right. exists i, b. split; [|done].
    apply elem_of_enumerate_from. split; [lia|]. by rewrite Nat.sub_0_r.
Qed.

(** X11. [add_query_fingerprint_get_duplicates_frequency] returns, in band
    order, one entry per band whose addressed bucket is occupied, each the
    one-element list holding the tuple of that bucket's members; so it has
    at most [num_bands] entries, repeats a bucket content that several
    bands give, and its tuples are the groups the set-valued query returns
    from the same state. *)
Theorem query_frequency_lists_occupied_bands s l x x1 t1 :
  wf s → heap s !! l = Some x → shuffle x (tape s) = (x1, t1) →
  let bands := enumerate (bands_of (num_bands s) x1) in
  ∃ r s' g s'',
    add_query_fingerprint_get_duplicates_frequency hash l s = (Ok r, s') ∧
    add_query_fingerprint_get_duplicates hash l s = (Ok g, s'') ∧
    r = (λ band, [members s band.1 (hash band.2)]) <$> filter (occupied hash s) bands ∧
    length r ≤ num_bands s ∧
    (∀ t, t ∈ g ↔ [t] ∈ r).
Proof.
  intros [Hn Hlen] Hl Hs1 bands.
  unfold add_query_fingerprint_get_duplicates_frequency,
    add_query_fingerprint_get_duplicates.
  run (bins__ok s l x x1 t1 Hl Hn Hs1). run (bins__ok s l x x1 t1 Hl Hn Hs1).
  set (sA := set_tape t1 (set_heap (<[l:=x1]> (heap s)) s)).
  assert (in_range sA bands) as Hr.
  { apply in_range_enumerate. simpl. rewrite length_bands_of by done. lia. }
  destruct (query_frequency_ok bands sA [] Hr) as (s' & HF & _).
  destruct (query_groups_ok bands sA ∅ Hr) as (g & s'' & HG & _ & Hg).
  eexists _, s', g, s''. split; [exact HF|]. split; [exact HG|].
  simpl.
  assert (filter (occupied hash sA) bands = filter (occupied hash s) bands) as ->
    by (by apply filter_occupied_same).
  split; [done|]. split.
  { rewrite length_fmap.
    pose proof (length_filter (occupied hash s) bands) as Hle.
    unfold bands, enumerate in Hle.
    rewrite length_enumerate_from, length_bands_of in Hle by done. done. }
  intros t. rewrite Hg, list_elem_of_fmap. split.
  - intros [H|(i & b & Hin & Ht & Hne)]; [by apply not_elem_of_empty in H|].
    exists (i, b). split; [simpl; by rewrite <- Ht|].
    apply list_elem_of_filter. split; [|done].
    apply occupied_nonempty. change (members sA i (hash b) ≠ []). by rewrite Ht.
  - intros ([i b] & Heq & Hin). apply list_elem_of_filter in Hin as [Hocc Hin].
    simpl in Heq. injection Heq as ->. right. exists i, b.
    split; [done|]. split; [done|]. by apply (occupied_nonempty hash s i b).
Qed.
End Groups.

(** ** Filtering and the scan *)

Lemma candidate_pairs_members s a b :
  (a, b) ∈ candidate_pairs_of (bins s) ↔
  ∃ i k p q, p < q ∧ members s i k !! p = Some a ∧ members s i k !! q = Some b.
Proof.
  unfold candidate_pairs_of. rewrite elem_of_candidate_pairs_from. split.
  - intros [H|(i & t & Hi & Hp)]; [by apply not_elem_of_empty in H|].
    apply elem_of_table_pairs in Hp as (k & bucket & Hk & _ & Hc).
    apply elem_of_combinations2 in Hc as (p & q & Hpq & Hp & Hq).
    exists i, k, p, q. unfold members. rewrite Hi, Hk. done.
  - intros (i & k & p & q & Hpq & Hp & Hq). right.
    unfold members in Hp, Hq.
    destruct (bins s !! i) as [t|] eqn:Hi; [|by rewrite lookup_nil in Hp].
    destruct (t !! k) as [bucket|] eqn:Hk; simpl in *; [|by rewrite lookup_nil in Hp].
    exists i, t. split; [done|]. apply elem_of_table_pairs.
    exists k, bucket. split; [done|]. split.
    + apply lookup_lt_Some in Hq. lia.
    + apply elem_of_combinations2. by exists p, q.
Qed.

Section MoreFiltering.
Variable hash : list Z → Z.
Variable hasher : MinHasher.

Lemma stored_missing s doc_id :
  fingerprints s !! doc_id = None → stored doc_id s = (Raise KeyError, s).
Proof. intros H. unfold stored, bind, get. by rewrite H. Qed.

Lemma stored_live s doc_id :
  store_live s → is_Some (fingerprints s !! doc_id) → is_Some (stored_fp s doc_id).
Proof.
  intros Hlive [l Hl]. unfold stored_fp. rewrite Hl. simpl. by eapply Hlive.
Qed.

Lemma filter_pairs_missing s m pairs : ∀ res,
  store_live s →
  (∃ a b, (a, b) ∈ pairs ∧
          (fingerprints s !! a = None ∨ fingerprints s !! b = None)) →
  filter_pairs hasher pairs m res s = (Raise KeyError, s).
Proof.
  induction pairs as [|[id1 id2] pairs IH]; intros res Hlive (a & b & Hin & Hmiss).
  - by apply elem_of_nil in Hin.
  - simpl. destruct (fingerprints s !! id1) as [l1|] eqn:H1.
    2:{ by rewrite (bind_raise _ _ _ _ _ (stored_missing s id1 H1)). }
    destruct (stored_live s id1 Hlive) as [f1 Hf1]; [by rewrite H1|].
    run (stored_ok s id1 f1 Hf1).
    destruct (fingerprints s !! id2) as [l2|] eqn:H2.
    2:{ by rewrite (bind_raise _ _ _ _ _ (stored_missing s id2 H2)). }
    destruct (stored_live s id2 Hlive) as [f2 Hf2]; [by rewrite H2|].
    run (stored_ok s id2 f2 Hf2).
    assert (∃ a b, (a, b) ∈ pairs ∧
                   (fingerprints s !! a = None ∨ fingerprints s !! b = None)) as Hrest.
    { apply elem_of_cons in Hin as [Heq|Hin]; [|by exists a, b].
      injection Heq as -> ->. destruct Hmiss; congruence. }
    destruct (gtb _ _); by apply IH.
Qed.

(** X12. [filter_candidates] raises [KeyError], and changes nothing, as
    soon as one id of one candidate pair is not in the store, whatever the
    other pairs score. *)
Theorem filter_candidates_unknown_id s pairs m a b :
  store_live s → (a, b) ∈ pairs →
  fingerprints s !! a = None ∨ fingerprints s !! b = None →
  filter_candidates hasher pairs m s = (Raise KeyError, s).
Proof.
  intros Hlive Hin Hmiss. unfold filter_candidates.
  apply filter_pairs_missing; [done|].
  exists a, b. split; [by apply elem_of_elements | done].
Qed.

(** X13. With a threshold, [get_all_duplicates] returns the pairs of the
    scan without threshold whose two stored fingerprints score strictly
    above it, and the state is unchanged; this needs every id in a bucket
    to be in the store. *)
Theorem get_all_duplicates_with_threshold s m :
  (∀ i k y, y ∈ members s i k → is_Some (stored_fp s y)) →
  ∃ r0 r,
    get_all_duplicates hasher None s = (Ok r0, s) ∧
    get_all_duplicates hasher (Some m) s = (Ok r, s) ∧
    r ⊆ r0 ∧
    ∀ a b, (a, b) ∈ r ↔
           (a, b) ∈ r0 ∧
           ∃ fa fb, stored_fp s a = Some fa ∧ stored_fp s b = Some fb ∧
                    (m < jaccard hasher fa fb)%Q.
Proof.
  intros Hst. exists (candidate_pairs_of (bins s)).
  unfold get_all_duplicates, bind, get, filter_candidates.
  destruct (filter_pairs_ok hasher s m (elements (candidate_pairs_of (bins s))) ∅)
    as (r & Hr & Hiff).
  { intros a b Hin. apply elem_of_elements, candidate_pairs_members in Hin
      as (i & k & p & q & _ & Hp & Hq).
    split; eapply Hst; eapply list_elem_of_lookup_2; eauto. }
  exists r. split; [done|]. split; [done|].
  assert (∀ a b, (a, b) ∈ r ↔
                 (a, b) ∈ candidate_pairs_of (bins s) ∧
                 ∃ fa fb, stored_fp s a = Some fa ∧ stored_fp s b = Some fb ∧
                          (m < jaccard hasher fa fb)%Q) as Hiff'.
  { intros a b. rewrite Hiff, elem_of_elements. split.
    - intros [H|?]; [by apply not_elem_of_empty in H|done].
    - by right. }
  split; [|done]. intros [a b] Hin. by apply Hiff' in Hin as [? _].
Qed.

Lemma candidate_pairs_empty s :
  (∀ i k, members s i k = []) → candidate_pairs_of (bins s) = ∅.
Proof.
  intros Hempty. apply elem_of_equiv_empty_L. intros [a b] Hin.
  apply candidate_pairs_members in Hin as (i & k & p & q & _ & Hp & _).
  by rewrite Hempty, lookup_nil in Hp.
Qed.

Lemma get_duplicates_of_empty s doc doc_id l s0 :
  wf s → (∀ i k, members s i k = []) →
  resolve hasher doc doc_id s = (Ok l, s0) → is_Some (heap s0 !! l) →
  ∃ s', get_duplicates_of hash hasher doc doc_id None s = (Ok ∅, s').
Proof.
  intros [Hn Hlen] Hempty HR [x Hl]. unfold get_duplicates_of. run HR.
  pose proof (resolve_keeps hasher doc doc_id s) as HK. rewrite HR in HK.
  destruct HK as [(_ & N0 & L0 & _) M0]. simpl in *.
  destruct (shuffle x (tape s0)) as [x1 t1] eqn:Hs.
  assert (0 < num_bands s0) as Hn0 by lia.
  run (bins__ok s0 l x x1 t1 Hl Hn0 Hs).
  set (sA := set_tape t1 (set_heap (<[l:=x1]> (heap s0)) s0)).
  destruct (collect_ok hash (enumerate (bands_of (num_bands s0) x1)) sA ∅)
    as (r & sB & HB & _ & Hr).
  { apply in_range_enumerate. simpl. rewrite length_bands_of by done. lia. }
  run HB. exists sB. unfold ret. f_equal. f_equal.
  apply elem_of_equiv_empty_L. intros y Hy.
  apply Hr in Hy as [Hy|(i & b & _ & Hy)]; [by apply not_elem_of_empty in Hy|].
  change (y ∈ members s0 i (hash b)) in Hy. rewrite M0, Hempty in Hy.
  by apply elem_of_nil in Hy.
Qed.

(** X14. After [clear()] nothing is a duplicate although the store is
    kept: [get_all_duplicates] returns the empty set with or without a
    threshold, and [is_duplicate] is [False] for every document and id. *)
Theorem nothing_is_duplicate_after_clear s :
  wf s → store_live s →
  let s1 := (clear s).2 in
  fingerprints s1 = fingerprints s ∧
  (∀ m, get_all_duplicates hasher m s1 = (Ok ∅, s1)) ∧
  (∀ doc doc_id, ∃ s2, is_duplicate hash hasher doc doc_id s1 = (Ok false, s2)).
Proof.
  intros Hwf Hlive s1. pose proof Hwf as [Hn Hlen].
  assert (∀ i k, members s1 i k = []) as Hempty.
  { intros i k. unfold members. simpl.
    destruct (replicate (num_bands s) ∅ !! i) as [t|] eqn:H; [|done].
    apply lookup_replicate in H as [-> _]. by rewrite lookup_empty. }
  assert (wf s1) as Hwf1.
  { split; simpl; [done|]. by rewrite length_replicate. }
  split; [done|]. split.
  - intros m. unfold get_all_duplicates, bind, get.
    rewrite (candidate_pairs_empty s1 Hempty).
    destruct m; [|done]. unfold filter_candidates. by rewrite elements_empty.
  - intros doc doc_id. unfold is_duplicate.
    assert (∃ l s0, resolve hasher (Some doc) doc_id s1 = (Ok l, s0) ∧
                    is_Some (heap s0 !! l)) as (l & s0 & HR & Hl).
    { unfold resolve, bind, get.
      destruct (doc_id ≫= λ i, fingerprints s1 !! i) as [l|] eqn:Hd.
      - exists l, s1. split; [done|].
        destruct doc_id as [d|]; simpl in Hd; [|done]. by eapply Hlive.
      - unfold hasher_fingerprint. simpl. rewrite lookup_empty.
        eexists _, _. split; [done|]. simpl. rewrite lookup_insert_eq. eauto. }
    destruct (get_duplicates_of_empty s1 (Some doc) doc_id l s0 Hwf1 Hempty HR Hl)
      as (s2 & H2).
    run H2. exists s2. unfold ret. by rewrite size_empty.
Qed.
End MoreFiltering.

(** ** The invariant of the cache *)

Lemma stays_well_formed_refl s : stays_well_formed s s.
Proof. by intros ?. Qed.

Lemma stays_well_formed_trans s1 s2 s3 :
  stays_well_formed s1 s2 → stays_well_formed s2 s3 → stays_well_formed s1 s3.
Proof. unfold stays_well_formed. tauto. Qed.

Lemma stays_well_formed_intro s s' :
  num_bands s' = num_bands s → length (bins s') = length (bins s) →
  (∀ i k, NoDup (members s i k) → NoDup (members s' i k)) →
  (∀ l, is_Some (heap s !! l) → is_Some (heap s' !! l)) →
  (∀ d l, fingerprints s' !! d = Some l →
          fingerprints s !! d = Some l ∨ is_Some (heap s' !! l)) →
  (∀ doc l, lru s' !! doc = Some l → lru s !! doc = Some l ∨ is_Some (heap s' !! l)) →
  stays_well_formed s s'.
Proof.
  intros Hn Hl Hm Hh Hf Hc ([W1 W2] & Wn & Ws & Wl).
  split; [split; congruence|]. split; [intros i k; apply Hm, Wn|]. split.
  - intros d l Hd. destruct (Hf d l Hd) as [H|H]; [|done]. eapply Hh, Ws, H.
  - intros doc l Hd. destruct (Hc doc l Hd) as [H|H]; [|done]. eapply Hh, Wl, H.
Qed.

Lemma same_index_stays s s' : same_index s s' → stays_well_formed s s'.
Proof.
  intros [(E1&E2&E3&E4&E5&E6&E7) HM].
  apply stays_well_formed_intro; try done.
  - intros i k. by rewrite HM.
  - intros l. by rewrite E1.
  - intros d l. rewrite E6. by left.
  - intros doc l. rewrite E3. by left.
Qed.

Lemma bins_only_stays s s' :
  bins_only s s' → (∀ i k, NoDup (members s i k) → NoDup (members s' i k)) →
  stays_well_formed s s'.
Proof.
  intros (E1&E2&E3&E4&E5&E6&E7) HM.
  apply stays_well_formed_intro; try done.
  - intros l. by rewrite E1.
  - intros d l. rewrite E6. by left.
  - intros doc l. rewrite E3. by left.
Qed.

Lemma NoDup_set_add (l : list Z) d : NoDup l → NoDup (set_add d l).
Proof.
  intros H. unfold set_add. case_decide as Hin; [done|].
  apply NoDup_app. split; [done|]. split; [|apply NoDup_singleton].
  intros y Hy Hy'. apply list_elem_of_singleton in Hy'. by subst.
Qed.

Lemma NoDup_filter_ne (l : list Z) d : NoDup l → NoDup (filter (λ y, y ≠ d) l).
Proof. apply NoDup_filter. Qed.

Section Invariant.
Variable hash : list Z → Z.
Variable hasher : MinHasher.

Abbreviation swf := stays_well_formed.

Lemma swf_bind {A B} (m : M A) (k : A → M B) :
  keeps swf m → (∀ a, keeps swf (k a)) → keeps swf (bind m k).
Proof. apply keeps_bind. apply stays_well_formed_trans. Qed.

Lemma swf_ret {A} (a : A) : keeps swf (ret a).
Proof. apply keeps_ret, stays_well_formed_refl. Qed.

Lemma swf_raise {A} e : keeps swf (@raise A e).
Proof. apply keeps_raise, stays_well_formed_refl. Qed.

Lemma swf_get : keeps swf get.
Proof. apply keeps_get, stays_well_formed_refl. Qed.

Lemma swf_getitem i k : keeps swf (getitem i k).
Proof. eapply keeps_mono; [apply same_index_stays | apply getitem_keeps]. Qed.

Lemma swf_deref l : keeps swf (deref l).
Proof. apply deref_keeps, stays_well_formed_refl. Qed.

Lemma swf_stored d : keeps swf (stored d).
Proof. apply stored_keeps, stays_well_formed_refl. Qed.

Lemma swf_bucket_add doc_id band : keeps swf (bucket_add hash doc_id band).
Proof.
  destruct band as [i b]. intros s.
  destruct (decide (i < length (bins s))) as [Hi|Hi].
  - destruct (bucket_add_ok hash s doc_id i b Hi) as (s' & -> & B & HM). simpl.
    apply bins_only_stays; [done|]. intros i' k' Hnd. rewrite HM.
    case_decide; [by apply NoDup_set_add | done].
  - unfold bucket_add, bind, getitem. rewrite lookup_ge_None_2 by lia.
    apply stays_well_formed_refl.
Qed.

Lemma swf_bucket_remove doc_id band : keeps swf (bucket_remove hash doc_id band).
Proof.
  destruct band as [i b]. intros s.
  destruct (decide (i < length (bins s))) as [Hi|Hi].
  - destruct (decide (doc_id ∈ members s i (hash b))) as [Hin|Hout].
    + destruct (bucket_remove_ok hash s doc_id i b Hi Hin) as (s' & -> & B & HM).
      simpl. apply bins_only_stays; [done|]. intros i' k' Hnd. rewrite HM.
      case_decide; [by apply NoDup_filter_ne | done].
    + destruct (bucket_remove_missing hash s doc_id i b Hi Hout) as (s' & -> & S).
      simpl. by apply same_index_stays.
  - unfold bucket_remove, bind, getitem. rewrite lookup_ge_None_2 by lia.
    apply stays_well_formed_refl.
Qed.

Lemma swf_random_shuffle l : keeps swf (random_shuffle l).
Proof.
  intros s. unfold random_shuffle, bind, deref, get, modify.
  destruct (heap s !! l) as [x|] eqn:Hl; [|apply stays_well_formed_refl].
  destruct (shuffle x (tape s)) as [x' t'] eqn:Hs. simpl.
  apply stays_well_formed_intro; simpl; try done.
  - intros l' [y Hy]. destruct (decide (l' = l)) as [->|Hne].
    + rewrite lookup_insert_eq. eauto.
    + rewrite lookup_insert_ne by done. eauto.
  - intros d l'. by left.
  - intros doc l'. by left.
Qed.

Lemma swf_bins_ l : keeps swf (bins_ l).
Proof.
  unfold bins_. apply swf_bind; [apply swf_random_shuffle|].
  intros _. apply swf_bind; [apply swf_deref|].
  intros x. apply swf_bind; [apply swf_get|].
  intros s. destruct (array_split x (num_bands s)); [apply swf_ret | apply swf_raise].
Qed.

Lemma swf_hasher_fingerprint doc : keeps swf (hasher_fingerprint hasher doc).
Proof.
  intros s. unfold hasher_fingerprint.
  destruct (lru s !! doc) as [l|] eqn:Hd; [apply stays_well_formed_refl|]. simpl.
  assert (heap s !! fresh (dom (heap s)) = None) as Hfresh.
  { apply not_elem_of_dom. apply is_fresh. }
  apply stays_well_formed_intro; simpl; try done.
  - intros l [y Hy]. destruct (decide (l = fresh (dom (heap s)))) as [->|Hne].
    + rewrite lookup_insert_eq. eauto.
    + rewrite lookup_insert_ne by done. eauto.
  - intros d l. by left.
  - intros doc' l Hl. destruct (decide (doc' = doc)) as [->|Hne].
    + rewrite lookup_insert_eq in Hl. injection Hl as <-. right.
      rewrite lookup_insert_eq. eauto.
    + rewrite lookup_insert_ne in Hl by done. by left.
Qed.

Lemma swf_for {A} (xs : list A) (body : A → M unit) :
  (∀ x, keeps swf (body x)) → keeps swf (for_ xs body).
Proof.
  apply keeps_for; [apply stays_well_formed_refl | apply stays_well_formed_trans].
Qed.

Lemma swf_insert_pass l doc_id :
  keeps swf (bands <- bins_ l ;; for_ bands (bucket_add hash doc_id)).
Proof.
  apply swf_bind; [apply swf_bins_|]. intros bands.
  apply swf_for. apply swf_bucket_add.
Qed.

Lemma swf_strict_check bands : keeps swf (strict_check hash bands).
Proof.
  induction bands as [|[i b] bands IH]; simpl; [apply swf_ret|].
  apply swf_bind; [apply swf_getitem|].
  intros ?. case_decide; [apply swf_ret | apply IH].
Qed.

Lemma swf_lenient_check bands : ∀ a, keeps swf (lenient_check hash bands a).
Proof.
  induction bands as [|[i b] bands IH]; intros a; simpl; [apply swf_ret|].
  apply swf_bind; [apply swf_getitem|].
  intros ?. repeat case_decide; try apply IH. apply swf_ret.
Qed.

Lemma swf_collect bands : ∀ acc, keeps swf (collect hash bands acc).
Proof.
  induction bands as [|[i b] bands IH]; intros acc; simpl; [apply swf_ret|].
  apply swf_bind; [apply swf_getitem|]. intros ?. apply IH.
Qed.

Lemma swf_query_groups bands : ∀ acc, keeps swf (query_groups hash bands acc).
Proof.
  induction bands as [|[i b] bands IH]; intros acc; simpl; [apply swf_ret|].
  apply swf_bind; [apply swf_getitem|]. intros ?. case_decide; apply IH.
Qed.

Lemma swf_query_frequency bands : ∀ acc, keeps swf (query_frequency hash bands acc).
Proof.
  induction bands as [|[i b] bands IH]; intros acc; simpl; [apply swf_ret|].
  apply swf_bind; [apply swf_getitem|]. intros ?. case_decide; apply IH.
Qed.

Lemma swf_matching_ids items l : ∀ acc, keeps swf (matching_ids items l acc).
Proof.
  induction items as [|[id l'] items IH]; intros acc; simpl; [apply swf_ret|].
  apply swf_bind; [apply swf_deref|]. intros finger.
  apply swf_bind; [apply swf_deref|]. intros f.
  destruct (fp_match finger f); apply IH.
Qed.

Lemma swf_set_fingerprint l doc_id s :
  is_Some (heap s !! l) →
  swf s (set_fingerprints (<[doc_id := l]> (fingerprints s)) s).
Proof.
  intros Hl. apply stays_well_formed_intro; simpl; try done.
  - intros d l' Hd. destruct (decide (d = doc_id)) as [->|Hne].
    + rewrite lookup_insert_eq in Hd. injection Hd as <-. by right.
    + rewrite lookup_insert_ne in Hd by done. by left.
  - intros doc l'. by left.
Qed.

Lemma swf_add_fingerprint l doc_id s :
  is_Some (heap s !! l) → swf s (add_fingerprint hash l doc_id s).2.
Proof.
  intros Hl. eapply stays_well_formed_trans; [by apply (swf_set_fingerprint l doc_id)|].
  apply (swf_insert_pass l doc_id).
Qed.

Lemma swf_strict_dedup l doc_id s :
  is_Some (heap s !! l) → swf s (add_fingerprint_strict_dedup hash l doc_id s).2.
Proof.
  intros Hl. eapply stays_well_formed_trans; [by apply (swf_set_fingerprint l doc_id)|].
  set (s0 := set_fingerprints _ s).
  change ((add_fingerprint_strict_dedup hash l doc_id s).2)
    with ((bands <- bins_ l ;;
           add_to_cache <- strict_check hash bands ;;
           if add_to_cache : bool then
             bands <- bins_ l ;; for_ bands (bucket_add hash doc_id)
           else ret tt) s0).2.
  apply swf_bind; [apply swf_bins_|]. intros bands.
  apply swf_bind; [apply swf_strict_check|].
  intros [|]; [apply swf_insert_pass | apply swf_ret].
Qed.

Lemma swf_lenient_dedup l doc_id s :
  is_Some (heap s !! l) → swf s (add_fingerprint_lenient_dedup hash l doc_id s).2.
Proof.
  intros Hl. eapply stays_well_formed_trans; [by apply (swf_set_fingerprint l doc_id)|].
  set (s0 := set_fingerprints _ s).
  change ((add_fingerprint_lenient_dedup hash l doc_id s).2)
    with ((bands <- bins_ l ;;
           add_to_cache <- lenient_check hash bands 0 ;;
           if decide (add_to_cache < collision_threshold) then
             bands <- bins_ l ;; for_ bands (bucket_add hash doc_id)
           else ret tt) s0).2.
  apply swf_bind; [apply swf_bins_|]. intros bands.
  apply swf_bind; [apply swf_lenient_check|].
  intros a. case_decide; [apply swf_insert_pass | apply swf_ret].
Qed.

Lemma swf_add_doc doc doc_id : keeps swf (add_doc hash hasher doc doc_id).
Proof.
  intros s Hwf. unfold add_doc, bind.
  pose proof (swf_hasher_fingerprint doc s Hwf) as H0.
  destruct (hasher_fingerprint hasher doc s) as [[l|e] s0] eqn:HF; simpl in *; [|done].
  apply (swf_add_fingerprint l doc_id s0); [|done].
  unfold hasher_fingerprint in HF.
  destruct (lru s !! doc) as [l'|] eqn:Hd.
  - injection HF as <- <-. destruct Hwf as (_&_&_&Hl). by eapply Hl.
  - injection HF as <- <-. simpl. rewrite lookup_insert_eq. eauto.
Qed.

Lemma swf_remove_id doc_id : keeps swf (remove_id hash doc_id).
Proof.
  unfold remove_id. apply swf_bind; [apply swf_get|]. intros s.
  destruct (fingerprints s !! doc_id) as [l|]; [|apply swf_raise].
  apply swf_bind; [apply swf_bins_|]. intros bands.
  apply swf_bind; [apply swf_for, swf_bucket_remove|]. intros _.
  intros s1. unfold modify. simpl.
  apply stays_well_formed_intro; simpl; try done.
  - intros d l' Hd. left.
    destruct (decide (d = doc_id)) as [->|Hne].
    + by rewrite lookup_delete_eq in Hd.
    + by rewrite lookup_delete_ne in Hd.
  - intros doc l'. by left.
Qed.

Lemma swf_remove_doc doc : keeps swf (remove_doc hash hasher doc).
Proof.
  unfold remove_doc. apply swf_bind; [apply swf_hasher_fingerprint|]. intros l.
  apply swf_bind; [apply swf_get|]. intros s.
  apply swf_bind; [apply swf_matching_ids|]. intros ids.
  apply swf_for. apply swf_remove_id.
Qed.

Lemma swf_clear : keeps swf clear.
Proof.
  intros s ([W1 W2] & Wn & Ws & Wl). unfold clear, bind, modify. simpl.
  split; [split; simpl; [done | by rewrite length_replicate]|].
  split.
  { intros i k. unfold members. simpl.
    destruct (replicate (num_bands s) ∅ !! i) as [t|] eqn:H; [|apply NoDup_nil_2].
    apply lookup_replicate in H as [-> _]. rewrite lookup_empty. apply NoDup_nil_2. }
  split; [exact Ws|]. intros doc l H. simpl in H. by rewrite lookup_empty in H.
Qed.

Lemma swf_get_duplicates_of doc doc_id m :
  keeps swf (get_duplicates_of hash hasher doc doc_id m).
Proof.
  unfold get_duplicates_of. apply swf_bind.
  { unfold resolve. apply swf_bind; [apply swf_get|]. intros s.
    destruct (doc_id ≫= _); [apply swf_ret|].
    destruct doc; [apply swf_hasher_fingerprint | apply swf_raise]. }
  intros l. apply swf_bind; [apply swf_bins_|]. intros bands.
  apply swf_bind; [apply swf_collect|]. intros c.
  destruct m; [|apply swf_ret].
  apply filter_ids_keeps, stays_well_formed_refl.
Qed.

(** X15. Every method keeps a cache well formed, whether it returns or
    raises: as many bucket tables as bands, no member twice in a bucket, and
    an object behind every reference of the store and of the memo table.
    The insertions need the fingerprint they are given to be an object. *)
Theorem methods_keep_the_cache_well_formed s :
  well_formed s →
  (∀ l doc_id, is_Some (heap s !! l) →
     well_formed (add_fingerprint hash l doc_id s).2 ∧
     well_formed (add_fingerprint_strict_dedup hash l doc_id s).2 ∧
     well_formed (add_fingerprint_lenient_dedup hash l doc_id s).2) ∧
  (∀ doc doc_id, well_formed (add_doc hash hasher doc doc_id s).2) ∧
  (∀ doc_id, well_formed (remove_id hash doc_id s).2) ∧
  (∀ doc, well_formed (remove_doc hash hasher doc s).2) ∧
  well_formed (clear s).2 ∧
  (∀ l, well_formed (add_query_fingerprint_get_duplicates hash l s).2 ∧
        well_formed (add_query_fingerprint_get_duplicates_frequency hash l s).2) ∧
  (∀ doc doc_id m, well_formed (get_duplicates_of hash hasher doc doc_id m s).2) ∧
  (∀ doc doc_id, well_formed (is_duplicate hash hasher doc doc_id s).2) ∧
  (∀ m, well_formed (get_all_duplicates hasher m s).2).
Proof.
  intros Hwf. split.
  { intros l doc_id Hl. split; [by apply swf_add_fingerprint|].
    split; [by apply swf_strict_dedup | by apply swf_lenient_dedup]. }
  split; [intros doc doc_id; by apply swf_add_doc|].
  split; [intros doc_id; by apply swf_remove_id|].
  split; [intros doc; by apply swf_remove_doc|].
  split; [by apply swf_clear|].
  split.
  { intros l. split.
    - apply (swf_bind (bins_ l) (λ bands, query_groups hash bands ∅));
        [apply swf_bins_ | intros ?; apply swf_query_groups | done].
    - apply (swf_bind (bins_ l) (λ bands, query_frequency hash bands []));
        [apply swf_bins_ | intros ?; apply swf_query_frequency | done]. }
  split; [intros doc doc_id m; by apply swf_get_duplicates_of|].
  split.
  { intros doc doc_id. unfold is_duplicate.
    apply (swf_bind (get_duplicates_of hash hasher (Some doc) doc_id None)
             (λ r, ret (bool_decide (0 < size r))));
      [apply swf_get_duplicates_of | intros ?; apply swf_ret | done]. }
  intros m. by rewrite get_all_duplicates_state.
Qed.

(** X16. On a cache whose buckets list no member twice, every pair that
    [get_all_duplicates] returns has two different ids. *)
Theorem get_all_duplicates_pairs_are_distinct s m r a b :
  buckets_nodup s → get_all_duplicates hasher m s = (Ok r, s) → (a, b) ∈ r → a ≠ b.
Proof.
  intros Hnd Hr Hin.
  assert ((a, b) ∈ candidate_pairs_of (bins s)) as Hc.
  { unfold get_all_duplicates, bind, get in Hr. destruct m as [m|].
    - unfold filter_candidates in Hr.
      assert (∀ pairs res r',
                filter_pairs hasher pairs m res s = (Ok r', s) →
                (a, b) ∈ r' → (a, b) ∈ res ∨ (a, b) ∈ pairs) as Hsub.
      { induction pairs as [|[i1 i2] pairs IH]; intros res r' H Hab; simpl in H.
        - left. unfold ret in H. by injection H as <-.
        - unfold bind in H.
          pose proof (stored_state i1 s) as E1.
          destruct (stored i1 s) as [[f1|e] s1]; simpl in E1; subst s1; [|done].
          pose proof (stored_state i2 s) as E2.
          destruct (stored i2 s) as [[f2|e] s1]; simpl in E2; subst s1; [|done].
          destruct (gtb _ _).
          + destruct (IH _ _ H Hab) as [Hres|Hp]; [|right; by right].
            apply elem_of_union in Hres as [?|Hs]; [by left|].
            apply elem_of_singleton in Hs. right. rewrite Hs. left.
          + destruct (IH _ _ H Hab) as [?|?]; [by left | right; by right]. }
      destruct (Hsub _ _ _ Hr Hin) as [H|H]; [by apply not_elem_of_empty in H|].
      by apply elem_of_elements in H.
    - unfold ret in Hr. by injection Hr as <-. }
  apply candidate_pairs_members in Hc as (i & k & p & q & Hpq & Hp & Hq).
  intros <-. pose proof (NoDup_lookup _ _ _ _ (Hnd i k) Hp Hq). lia.
Qed.
End Invariant.

(** ** Documents *)

Lemma fp_match_prefix (x f : list Z) :
  fp_match x f = true ↔ take (length f) x = take (length x) f.
Proof.
  unfold fp_match. revert f. induction x as [|a x IH]; intros [|c f]; simpl; try done.
  rewrite andb_true_iff, bool_decide_eq_true, IH. split.
  - intros [-> ->]. done.
  - intros [= -> ?]. done.
Qed.

Section Documents.
Variable hash : list Z → Z.
Variable hasher : MinHasher.

Lemma matching_ids_ok s fl f items : ∀ acc,
  heap s !! fl = Some f →
  (∀ id l, (id, l) ∈ items → is_Some (heap s !! l)) →
  ∃ r, matching_ids items fl acc s = (Ok r, s) ∧
    ∀ y, y ∈ r ↔
         y ∈ acc ∨
         ∃ l finger, (y, l) ∈ items ∧ heap s !! l = Some finger ∧
                     fp_match finger f = true.
Proof.
  intros acc Hf. revert acc.
  induction items as [|[id l] items IH]; intros acc Hlive; simpl.
  - exists acc. split; [done|]. intros y. split; [auto|].
    intros [?|(?&?&H&_)]; [done|]. by apply elem_of_nil in H.
  - destruct (Hlive id l) as [finger Hl]; [left|].
    assert (deref l s = (Ok finger, s)) as D1 by (unfold deref; by rewrite Hl).
    assert (deref fl s = (Ok f, s)) as D2 by (unfold deref; by rewrite Hf).
    run D1. run D2.
    assert (∀ id' l', (id', l') ∈ items → is_Some (heap s !! l')) as Hlive'
      by (intros ? ? ?; eapply Hlive; by right).
    destruct (fp_match finger f) eqn:Hm.
    + destruct (IH (acc ∪ {[id]}) Hlive') as (r & Hr & Hiff).
      exists r. split; [done|]. intros y.
      rewrite Hiff, elem_of_union, elem_of_singleton. split.
      * intros [[?| ->]|(l' & fg & Hin & Hh & Hfm)]; [by left| |].
        -- right. exists l, finger. split; [left|done].
        -- right. exists l', fg. split; [by right|done].
      * intros [?|(l' & fg & Hin & Hh & Hfm)]; [by left; left|].
        apply elem_of_cons in Hin as [Heq|Hin].
        -- injection Heq as -> ->. by left; right.
        -- right. by exists l', fg.
    + destruct (IH acc Hlive') as (r & Hr & Hiff).
      exists r. split; [done|]. intros y. rewrite Hiff. split.
      * intros [?|(l' & fg & Hin & Hh & Hfm)]; [by left|].
        right. exists l', fg. split; [by right|done].
      * intros [?|(l' & fg & Hin & Hh & Hfm)]; [by left|].
        apply elem_of_cons in Hin as [Heq|Hin].
        -- injection Heq as -> ->. rewrite Hl in Hh. injection Hh as <-. congruence.
        -- right. by exists l', fg.
Qed.

Lemma remove_doc_ids s l f :
  heap s !! l = Some f → store_live s →
  ∃ ids, matching_ids (map_to_list (fingerprints s)) l ∅ s = (Ok ids, s) ∧
    ∀ y, y ∈ ids ↔ ∃ x, stored_fp s y = Some x ∧ fp_match x f = true.
Proof.
  intros Hf Hlive.
  destruct (matching_ids_ok s l f (map_to_list (fingerprints s)) ∅ Hf) as (r & Hr & Hiff).
  { intros id l' Hin. apply elem_of_map_to_list in Hin. by eapply Hlive. }
  exists r. split; [done|]. intros y. rewrite Hiff. split.
  - intros [H|(l' & x & Hin & Hh & Hm)]; [by apply not_elem_of_empty in H|].
    apply elem_of_map_to_list in Hin. exists x. split; [|done].
    unfold stored_fp. by rewrite Hin.
  - intros (x & Hx & Hm). right. unfold stored_fp in Hx.
    destruct (fingerprints s !! y) as [l'|] eqn:Hy; [|done]. simpl in Hx.
    exists l', x. split; [by apply elem_of_map_to_list|done].
Qed.

(** X17. [remove_doc] computes the fingerprint of the document and removes
    nothing when no stored fingerprint agrees with it on their common
    length ([zip] stops at the shorter one): it returns, and only the
    provider's memo table may have changed. *)
Theorem remove_doc_without_match s doc l s0 f :
  hasher_fingerprint hasher doc s = (Ok l, s0) → heap s0 !! l = Some f →
  store_live s0 →
  (∀ d x, stored_fp s0 d = Some x → take (length f) x ≠ take (length x) f) →
  remove_doc hash hasher doc s = (Ok tt, s0).
Proof.
  intros HF Hf Hlive Hno. unfold remove_doc. run HF.
  unfold bind at 1, get at 1.
  destruct (remove_doc_ids s0 l f Hf Hlive) as (ids & Hids & Hiff).
  run Hids.
  assert (ids = ∅) as ->.
  { apply elem_of_equiv_empty_L. intros y Hy. apply Hiff in Hy as (x & Hx & Hm).
    apply fp_match_prefix in Hm. by eapply Hno. }
  by rewrite elements_empty.
Qed.

(** X18. When exactly one id of the store has a fingerprint that agrees
    with the document's on their common length, [remove_doc] does what
    [remove_id] of that id does, from the state in which the document's
    fingerprint is computed: same outcome, same final state. *)
Theorem remove_doc_single_match s doc l s0 f doc_id :
  hasher_fingerprint hasher doc s = (Ok l, s0) → heap s0 !! l = Some f →
  store_live s0 → is_Some (fingerprints s0 !! doc_id) →
  (∀ d x, stored_fp s0 d = Some x →
          (take (length f) x = take (length x) f ↔ d = doc_id)) →
  remove_doc hash hasher doc s = remove_id hash doc_id s0.
Proof.
  intros HF Hf Hlive [ld Hd] Hone. unfold remove_doc. run HF.
  unfold bind at 1, get at 1.
  destruct (remove_doc_ids s0 l f Hf Hlive) as (ids & Hids & Hiff).
  run Hids.
  assert (ids = {[doc_id]}) as ->.
  { apply set_eq. intros y. rewrite Hiff, elem_of_singleton. split.
    - intros (x & Hx & Hm). apply fp_match_prefix in Hm. by apply (Hone y x Hx).
    - intros ->. destruct (Hlive doc_id ld Hd) as [x Hx].
      exists x. assert (stored_fp s0 doc_id = Some x) as Hst
        by (unfold stored_fp; by rewrite Hd).
      split; [done|]. apply fp_match_prefix. by apply (Hone doc_id x Hst). }
  rewrite elements_singleton. simpl. unfold bind.
  destruct (remove_id hash doc_id s0) as [[[]|e] s1]; done.
Qed.

(** X19. On a well-formed cache [add_doc] cannot fail. The store entry of
    [doc_id] and the provider's memo entry of the document refer to one
    object, which the banding has shuffled; for a document that was not
    memoised it holds a permutation of the document's fingerprint.
    [doc_id] is a member of the addressed bucket in every band. *)
Theorem add_doc_shares_the_memoised_fingerprint s doc doc_id :
  wf s → lru_live s →
  ∃ s' l x',
    add_doc hash hasher doc doc_id s = (Ok tt, s') ∧
    fingerprints s' !! doc_id = Some l ∧ lru s' !! doc = Some l ∧
    heap s' !! l = Some x' ∧
    (lru s !! doc = None → x' ≡ₚ fingerprint_of hasher doc) ∧
    (∀ i, i < num_bands s →
          ∃ b, bands_of (num_bands s) x' !! i = Some b ∧
               doc_id ∈ members s' i (hash b)).
Proof.
  intros Hwf Hlru. pose proof Hwf as [Hn Hlen]. unfold add_doc.
  assert (∃ l s0 x,
            hasher_fingerprint hasher doc s = (Ok l, s0) ∧ heap s0 !! l = Some x ∧
            lru s0 !! doc = Some l ∧ wf s0 ∧ num_bands s0 = num_bands s ∧
            (∀ i k, members s0 i k = members s i k) ∧
            (lru s !! doc = None → x = fingerprint_of hasher doc))
    as (l & s0 & x & HF & Hl & Hm & Hwf0 & Hnb & HM0 & Hx).
  { unfold hasher_fingerprint. destruct (lru s !! doc) as [l|] eqn:Hd.
    - destruct (Hlru doc l Hd) as [x Hx]. exists l, s, x. done.
    - eexists _, _, _. split; [done|]. simpl. rewrite !lookup_insert_eq. done. }
  run HF.
  destruct (shuffle x (tape s0)) as [x' t'] eqn:Hs.
  destruct (add_fingerprint_ok hash s0 l x x' t' doc_id Hwf0 Hl Hs)
    as (s' & H & Hh & Ht & Hf & Hnb' & Hlb & HM).
  assert (lru s' = lru s0) as Hlru'.
  { pose proof (add_fingerprint_frame hash l doc_id s0) as _.
    unfold add_fingerprint in H. unfold bind at 1, modify at 1 in H.
    set (s1 := set_fingerprints _ s0) in H.
    destruct (shuffle x (tape s1)) as [x1 t1] eqn:Hs1.
    assert (heap s1 !! l = Some x) as Hl1 by done.
    assert (0 < num_bands s1) as Hn1 by (destruct Hwf0; done).
    rewrite (bind_ok _ _ _ _ _ (bins__ok s1 l x x1 t1 Hl1 Hn1 Hs1)) in H.
    destruct (for_add_ok hash doc_id (bands_of (num_bands s1) x1) 0
                (set_tape t1 (set_heap (<[l:=x1]> (heap s1)) s1)))
      as (s2 & H2 & (E1&E2&E3&E4&E5&E6&E7) & _).
    { simpl. rewrite length_bands_of by done. destruct Hwf0 as [? ?]. simpl. lia. }
    unfold enumerate in H. rewrite H2 in H. injection H as <-. by rewrite E3. }
  exists s', l, x'. split; [done|].
  split; [rewrite Hf; apply lookup_insert_eq|].
  split; [by rewrite Hlru'|].
  split; [rewrite Hh; apply lookup_insert_eq|].
  split.
  { intros Hnone. rewrite <- (Hx Hnone).
    rewrite <- (shuffle_perm x (tape s0)), Hs. done. }
  intros i Hi. rewrite <- Hnb in *.
  destruct (lookup_bands_of (num_bands s0) x' i) as [b Hb]; [by destruct Hwf0|done|].
  exists b. split; [done|]. rewrite HM, Hb, decide_True by done.
  apply elem_of_set_add.
Qed.
End Documents.

(** ** Runs of the further properties on the small cache *)

Lemma members_fresh_cache draws i k : members (Demo.fresh_cache draws) i k = [].
Proof. destruct i as [|[|i]]; reflexivity. Qed.

Lemma well_formed_fresh_cache draws : well_formed (Demo.fresh_cache draws).
Proof.
  split; [apply wf_fresh_cache|]. split.
  - intros i k. rewrite members_fresh_cache. apply NoDup_nil_2.
  - split; intros d l H; simpl in H; by rewrite lookup_empty in H.
Qed.

Lemma well_formed_after_add draws :
  well_formed (Demo.after (add_fingerprint PyHash.hash_tuple 1%positive 7%Z)
                 (Demo.fresh_cache draws)).
Proof.
  apply swf_add_fingerprint; [by eexists | apply well_formed_fresh_cache].
Qed.

Lemma members_after_add draws i k y :
  y ∈ members (Demo.after (add_fingerprint PyHash.hash_tuple 1%positive 7%Z)
                 (Demo.fresh_cache draws)) i k →
  y = 7%Z.
Proof.
  destruct (shuffle [1; 2; 3; 4]%Z draws) as [x' t'] eqn:Hs.
  destruct (add_fingerprint_ok PyHash.hash_tuple (Demo.fresh_cache draws) 1%positive
              [1; 2; 3; 4]%Z x' t' 7%Z (wf_fresh_cache draws) eq_refl Hs)
    as (s' & H & _ & _ & _ & _ & _ & HM).
  unfold Demo.after. rewrite H. simpl. rewrite HM, !members_fresh_cache.
  destruct (bands_of _ x' !! i); [|by intros ?%elem_of_nil].
  case_decide; [|by intros ?%elem_of_nil].
  intros Hy. apply elem_of_set_add_iff in Hy as [?|?%elem_of_nil]; done.
Qed.

Lemma add_fingerprint_inserts_everywhere_witness :
  ∃ s' x',
    add_fingerprint PyHash.hash_tuple 1%positive 7%Z (Demo.fresh_cache [0; 0; 0])
    = (Ok tt, s') ∧
    stored_fp s' 7%Z = Some x' ∧ x' ≡ₚ [1; 2; 3; 4]%Z ∧ wf s'.
Proof.
  destruct (add_fingerprint_inserts_everywhere PyHash.hash_tuple
              (Demo.fresh_cache [0; 0; 0]) 1%positive [1; 2; 3; 4]%Z 7%Z)
    as (s' & x' & H & Hst & Hp & _ & _ & _ & _ & Hwf);
    [apply wf_fresh_cache | reflexivity |].
  exists s', x'. split; [exact H|]. split; [exact Hst|]. split; [exact Hp | exact Hwf].
Defined.

Lemma lenient_dedup_inserts_below_four_bands_witness :
  ∃ s' x',
    add_fingerprint_lenient_dedup PyHash.hash_tuple 1%positive 7%Z
      (Demo.fresh_cache [0; 0; 0; 0; 0; 0]) = (Ok tt, s') ∧
    stored_fp s' 7%Z = Some x' ∧ x' ≡ₚ [1; 2; 3; 4]%Z.
Proof.
  destruct (lenient_dedup_inserts_below_four_bands PyHash.hash_tuple
              (Demo.fresh_cache [0; 0; 0; 0; 0; 0]) 1%positive [1; 2; 3; 4]%Z 7%Z)
    as (s' & x' & H & Hst & Hp & _);
    [apply wf_fresh_cache | vm_compute; lia | reflexivity |].
  exists s', x'. split; [exact H|]. split; [exact Hst | exact Hp].
Defined.

Lemma remove_id_unknown_witness :
  remove_id PyHash.hash_tuple 7%Z (Demo.fresh_cache [0; 0; 0])
  = (Raise KeyError, Demo.fresh_cache [0; 0; 0]).
Proof. apply remove_id_unknown. reflexivity. Defined.

Lemma remove_id_succeeds_when_buckets_hold_it_witness :
  let s := Demo.after (add_fingerprint PyHash.hash_tuple 1%positive 7%Z)
                      (Demo.fresh_cache [3; 2; 1; 3; 2; 1]) in
  ∃ s', remove_id PyHash.hash_tuple 7%Z s = (Ok tt, s') ∧
        fingerprints s' = delete 7%Z (fingerprints s).
Proof.
  intros s.
  destruct (remove_id_succeeds_when_buckets_hold_it PyHash.hash_tuple s 7%Z
              1%positive [1; 2; 3; 4]%Z [1; 2; 3; 4]%Z [])
    as (s' & H & Hf & _);
    [split; vm_compute; lia | reflexivity | reflexivity | reflexivity | |].
  { intros i b Hb. destruct i as [|[|i]]; vm_compute in Hb; [| |done].
    - injection Hb as <-. apply (bool_decide_unpack _). vm_compute. exact I.
    - injection Hb as <-. apply (bool_decide_unpack _). vm_compute. exact I. }
  exists s'. split; [exact H | exact Hf].
Defined.

Lemma remove_id_twice_witness :
  let s := Demo.after (add_fingerprint PyHash.hash_tuple 1%positive 7%Z)
                      (Demo.fresh_cache [3; 2; 1; 3; 2; 1]) in
  let s' := Demo.after (remove_id PyHash.hash_tuple 7%Z) s in
  fingerprints s' !! 7%Z = None ∧
  remove_id PyHash.hash_tuple 7%Z s' = (Raise KeyError, s').
Proof.
  intros s s'. apply (remove_id_twice PyHash.hash_tuple s s' 7%Z).
  vm_compute. reflexivity.
Defined.

Lemma get_duplicates_of_needs_a_fingerprint_witness :
  get_duplicates_of PyHash.hash_tuple Demo.hasher None (Some 9%Z) None
    (Demo.fresh_cache [0; 0; 0])
  = (Raise ValueError, Demo.fresh_cache [0; 0; 0]).
Proof.
  apply get_duplicates_of_needs_a_fingerprint. intros d _. reflexivity.
Defined.

Lemma get_duplicates_of_is_the_union_of_buckets_witness :
  let s := Demo.after (add_fingerprint PyHash.hash_tuple 1%positive 7%Z)
                      (Demo.fresh_cache [3; 2; 1; 3; 2; 1]) in
  ∃ r s', get_duplicates_of PyHash.hash_tuple Demo.hasher None (Some 7%Z) None s
          = (Ok r, s') ∧
          stored_fp s' 7%Z = Some [1; 2; 3; 4]%Z.
Proof.
  intros s.
  destruct (get_duplicates_of_is_the_union_of_buckets PyHash.hash_tuple Demo.hasher
              s None 7%Z 1%positive [1; 2; 3; 4]%Z [1; 2; 3; 4]%Z [])
    as (r & s' & H & _ & Hst);
    [split; vm_compute; lia | reflexivity | reflexivity | reflexivity |].
  exists r, s'. split; [exact H | exact Hst].
Defined.

Lemma query_groups_are_whole_buckets_witness :
  let s := Demo.after (add_fingerprint PyHash.hash_tuple 1%positive 7%Z)
                      (Demo.fresh_cache [3; 2; 1; 3; 2; 1]) in
  ∃ r s', add_query_fingerprint_get_duplicates PyHash.hash_tuple 1%positive s
          = (Ok r, s') ∧
          ∀ i k, members s' i k = members s i k.
Proof.
  intros s.
  destruct (query_groups_are_whole_buckets PyHash.hash_tuple s 1%positive
              [1; 2; 3; 4]%Z [1; 2; 3; 4]%Z [])
    as (r & s' & H & _ & HM);
    [split; vm_compute; lia | reflexivity | reflexivity |].
  exists r, s'. split; [exact H | exact HM].
Defined.

Lemma query_frequency_lists_occupied_bands_witness :
  let s := Demo.after (add_fingerprint PyHash.hash_tuple 1%positive 7%Z)
                      (Demo.fresh_cache [3; 2; 1; 3; 2; 1]) in
  ∃ r s', add_query_fingerprint_get_duplicates_frequency PyHash.hash_tuple 1%positive s
          = (Ok r, s') ∧
          length r ≤ 2.
Proof.
  intros s.
  destruct (query_frequency_lists_occupied_bands PyHash.hash_tuple s 1%positive
              [1; 2; 3; 4]%Z [1; 2; 3; 4]%Z [])
    as (r & s' & g & s'' & H & _ & _ & Hl & _);
    [split; vm_compute; lia | reflexivity | reflexivity |].
  exists r, s'. split; [exact H | exact Hl].
Defined.

Lemma filter_candidates_unknown_id_witness :
  let s := Demo.after (add_fingerprint PyHash.hash_tuple 1%positive 7%Z)
                      (Demo.fresh_cache [3; 2; 1]) in
  filter_candidates Demo.hasher {[ (7%Z, 9%Z) ]} (1 # 2)%Q s = (Raise KeyError, s).
Proof.
  intros s.
  apply (filter_candidates_unknown_id Demo.hasher s {[ (7%Z, 9%Z) ]} (1 # 2)%Q 7%Z 9%Z).
  - apply (well_formed_after_add [3; 2; 1]).
  - apply elem_of_singleton. reflexivity.
  - right. reflexivity.
Defined.

Lemma get_all_duplicates_with_threshold_witness :
  let s := Demo.after (add_fingerprint PyHash.hash_tuple 1%positive 7%Z)
                      (Demo.fresh_cache [3; 2; 1]) in
  ∃ r0 r, get_all_duplicates Demo.hasher None s = (Ok r0, s) ∧
          get_all_duplicates Demo.hasher (Some (1 # 2)%Q) s = (Ok r, s) ∧
          r ⊆ r0.
Proof.
  intros s.
  destruct (get_all_duplicates_with_threshold Demo.hasher s (1 # 2)%Q)
    as (r0 & r & H0 & H & Hsub & _).
  { intros i k y Hy. apply members_after_add in Hy as ->.
    exists [1; 2; 3; 4]%Z. reflexivity. }
  exists r0, r. split; [exact H0|]. split; [exact H | exact Hsub].
Defined.

Lemma nothing_is_duplicate_after_clear_witness :
  let s := Demo.after (add_fingerprint PyHash.hash_tuple 1%positive 7%Z)
                      (Demo.fresh_cache [3; 2; 1]) in
  fingerprints (clear s).2 = fingerprints s ∧
  get_all_duplicates Demo.hasher None (clear s).2 = (Ok ∅, (clear s).2) ∧
  ∃ s2, is_duplicate PyHash.hash_tuple Demo.hasher "a" (Some 7%Z) (clear s).2
        = (Ok false, s2).
Proof.
  intros s.
  destruct (nothing_is_duplicate_after_clear PyHash.hash_tuple Demo.hasher s)
    as (Hf & Hall & Hdup).
  - split; vm_compute; lia.
  - apply (well_formed_after_add [3; 2; 1]).
  - split; [exact Hf|]. split; [apply Hall | apply Hdup].
Defined.

Lemma methods_keep_the_cache_well_formed_witness :
  let s := Demo.fresh_cache [0; 0; 0] in
  well_formed (add_fingerprint PyHash.hash_tuple 1%positive 7%Z s).2 ∧
  well_formed (clear s).2.
Proof.
  intros s.
  destruct (methods_keep_the_cache_well_formed PyHash.hash_tuple Demo.hasher s
              (well_formed_fresh_cache [0; 0; 0]))
    as (Hadd & _ & _ & _ & Hclear & _).
  split; [|exact Hclear].
  apply (Hadd 1%positive 7%Z). exists [1; 2; 3; 4]%Z. reflexivity.
Defined.

Lemma well_formed_scan_cache : well_formed Demo.scan_cache.
Proof.
  split; [split; simpl; lia|]. split.
  - intros i k. destruct i as [|[|i]]; apply NoDup_nil_2.
  - split; intros d l H; simpl in H; by rewrite lookup_empty in H.
Qed.

Lemma well_formed_scanned :
  well_formed
    (Demo.after (add_fingerprint PyHash.hash_tuple 3%positive 0%Z)
       (Demo.after (add_fingerprint PyHash.hash_tuple 2%positive 8%Z)
          (Demo.after (add_fingerprint PyHash.hash_tuple 1%positive 0%Z)
             Demo.scan_cache))).
Proof.
  apply swf_add_fingerprint; [exists [7; 7; 3; 4]%Z; vm_compute; reflexivity|].
  apply swf_add_fingerprint; [exists [1; 2; 3; 4]%Z; vm_compute; reflexivity|].
  apply swf_add_fingerprint; [exists [1; 2; 9; 9]%Z; vm_compute; reflexivity|].
  apply well_formed_scan_cache.
Qed.

Lemma get_all_duplicates_pairs_are_distinct_witness :
  let s := Demo.after (add_fingerprint PyHash.hash_tuple 3%positive 0%Z)
             (Demo.after (add_fingerprint PyHash.hash_tuple 2%positive 8%Z)
                (Demo.after (add_fingerprint PyHash.hash_tuple 1%positive 0%Z)
                   Demo.scan_cache)) in
  get_all_duplicates Demo.hasher None s = (Ok {[ (0%Z, 8%Z); (8%Z, 0%Z) ]}, s) ∧
  (0 ≠ 8)%Z.
Proof.
  intros s.
  assert (get_all_duplicates Demo.hasher None s
          = (Ok {[ (0%Z, 8%Z); (8%Z, 0%Z) ]}, s)) as H
    by (vm_compute; reflexivity).
  split; [exact H|].
  apply (get_all_duplicates_pairs_are_distinct Demo.hasher s None
           {[ (0%Z, 8%Z); (8%Z, 0%Z) ]} 0%Z 8%Z).
  - apply well_formed_scanned.
  - exact H.
  - apply elem_of_union. left. apply elem_of_singleton. reflexivity.
Defined.

Lemma remove_doc_without_match_witness :
  let s := Demo.after (add_fingerprint PyHash.hash_tuple 1%positive 7%Z)
                      (Demo.fresh_cache [3; 2; 1]) in
  remove_doc PyHash.hash_tuple Demo.hasher "a" s
  = (Ok tt, Demo.after (hasher_fingerprint Demo.hasher "a") s).
Proof.
  intros s.
  apply (remove_doc_without_match PyHash.hash_tuple Demo.hasher s "a" 2%positive
           (Demo.after (hasher_fingerprint Demo.hasher "a") s) [0; 0; 0; 0]%Z).
  - vm_compute. reflexivity.
  - vm_compute. reflexivity.
  - apply (swf_hasher_fingerprint Demo.hasher "a" s).
    apply (well_formed_after_add [3; 2; 1]).
  - intros d x Hx. unfold stored_fp in Hx.
    assert (fingerprints (Demo.after (hasher_fingerprint Demo.hasher "a") s)
            = <[7%Z := 1%positive]> ∅) as Hfp by (vm_compute; reflexivity).
    rewrite Hfp in Hx. destruct (decide (d = 7%Z)) as [->|Hne].
    + vm_compute in Hx. injection Hx as <-. vm_compute. discriminate.
    + rewrite lookup_insert_ne, lookup_empty in Hx by done. discriminate.
Defined.

Lemma remove_doc_single_match_witness :
  let s := Demo.after (add_doc PyHash.hash_tuple Demo.hasher "a" 7%Z)
                      (Demo.fresh_cache [3; 2; 1]) in
  remove_doc PyHash.hash_tuple Demo.hasher "a" s = remove_id PyHash.hash_tuple 7%Z s.
Proof.
  intros s.
  assert (well_formed s) as Hwf.
  { apply (swf_add_doc PyHash.hash_tuple Demo.hasher "a" 7%Z).
    apply well_formed_fresh_cache. }
  assert (fingerprints s = <[7%Z := 2%positive]> ∅) as Hfp
    by (vm_compute; reflexivity).
  apply (remove_doc_single_match PyHash.hash_tuple Demo.hasher s "a" 2%positive s
           [0; 0; 0; 0]%Z 7%Z).
  - vm_compute. reflexivity.
  - vm_compute. reflexivity.
  - apply Hwf.
  - exists 2%positive. vm_compute. reflexivity.
  - intros d x Hx. unfold stored_fp in Hx. rewrite Hfp in Hx.
    destruct (decide (d = 7%Z)) as [->|Hne].
    + vm_compute in Hx. injection Hx as <-. split; [done|]. intros _. reflexivity.
    + rewrite lookup_insert_ne, lookup_empty in Hx by done. discriminate.
Defined.

Lemma add_doc_shares_the_memoised_fingerprint_witness :
  ∃ s' l x',
    add_doc PyHash.hash_tuple Demo.hasher "a" 7%Z (Demo.fresh_cache [0; 0; 0])
    = (Ok tt, s') ∧
    fingerprints s' !! 7%Z = Some l ∧ lru s' !! "a" = Some l ∧
    heap s' !! l = Some x' ∧ x' ≡ₚ [0; 0; 0; 0]%Z.
Proof.
  destruct (add_doc_shares_the_memoised_fingerprint PyHash.hash_tuple Demo.hasher
              (Demo.fresh_cache [0; 0; 0]) "a" 7%Z)
    as (s' & l & x' & H & Hf & Hl & Hh & Hp & _).
  - apply wf_fresh_cache.
  - intros doc l H. simpl in H. by rewrite lookup_empty in H.
  - exists s', l, x'. split; [exact H|]. split; [exact Hf|]. split; [exact Hl|].
    split; [exact Hh|]. apply Hp. reflexivity.
Defined.
